(** * Projeto Gaia v3.0: the perception / scoring / tempering / mutation cycle

    Shallow embedding of the core classes of [Gaya_v3.py] ([Sentido],
    [Dominio], [MotorEvolutivo], [NucleoEtico], [Gaia]) and the properties of
    one cycle of [Gaia.viver_um_ciclo].

    Numbers.  The program computes on Python / NumPy floats.  The first
    embedding takes them as exact rationals ([Q]): its statements are about
    the arithmetic the program denotes, not about rounding.  Equality of
    numbers is [Qeq] ([==]); equality of states, shapes and actions is
    Leibniz equality.  Where rounding decides (the tempering inside a cycle,
    the size of a mutation) the same lines are embedded once more, in
    [Maquina], over any arithmetic; exact rationals ([exata]) and IEEE 754
    binary64 ([binary64]) are two of them.

    Effects.  The only mutable object of the core is the weight matrix
    [MotorEvolutivo.pesos]; the only outside state is the pair of random
    generators ([random] and [numpy.random]), gathered in [Mundo].  Methods
    are programs of a small state-and-exception monad [Prog]. *)

From Stdlib Require Import String Bool Arith ZArith QArith Qabs Lia Lqa List.
From Stdlib Require Import PrimFloat.
Import ListNotations.

Set Implicit Arguments.

Local Open Scope string_scope.
Local Open Scope list_scope.
Local Open Scope Q_scope.

(* ------------------------------------------------------------------ *)
(** ** Exceptions and the program monad *)

(** The exceptions a cycle can end with: NumPy's [ValueError] (shape
    mismatch in [np.dot], [np.argmax] of an empty array), the [IndexError] of
    list indexing, and whatever a sensor's read function raises. *)
Inductive excecao : Type :=
| ValueError (msg : string)
| IndexError (msg : string)
| OutraExcecao (classe : string).

Inductive resultado (A : Type) : Type :=
| Ok (a : A)
| Raise (e : excecao).

Arguments Ok {A} a.
Arguments Raise {A} e.

(** A program over a state [S]: it returns a value or raises, and in both
    cases leaves a state behind (an exception does not undo earlier
    writes). *)
Definition Prog (S A : Type) : Type := S -> resultado A * S.

Definition ret {S A : Type} (a : A) : Prog S A := fun s => (Ok a, s).

Definition raise {S A : Type} (e : excecao) : Prog S A := fun s => (Raise e, s).

Definition bind {S A B : Type} (c : Prog S A) (k : A -> Prog S B) : Prog S B :=
  fun s =>
    match c s with
    | (Ok a, s') => k a s'
    | (Raise e, s') => (Raise e, s')
    end.

(** A value that is already computed or already failed, as a program. *)
Definition de_resultado {S A : Type} (r : resultado A) : Prog S A :=
  fun s => (r, s).

Declare Scope prog_scope.
Delimit Scope prog_scope with prog.

Notation "x <- c ;; k" := (bind c (fun x => k))
  (at level 100, c at next level, right associativity) : prog_scope.
Notation "c ;;; k" := (bind c (fun _ => k))
  (at level 100, right associativity) : prog_scope.

(** Running a program of a component inside a larger state. *)
Definition dentro {S T A : Type} (get : S -> T) (set : T -> S -> S)
  (c : Prog T A) : Prog S A :=
  fun s => let (r, t') := c (get s) in (r, set t' s).

(* ------------------------------------------------------------------ *)
(** ** Vectors, matrices and the NumPy operations the cycle uses *)

Definition vetor : Type := list Q.

(** A two-dimensional [ndarray]: NumPy keeps the shape apart from the data
    (an array of shape (0, 3) and one of shape (2, 0) are both empty and
    different). *)
Record ndarray2 : Type := mk_ndarray2 {
  shape : nat * nat;
  linhas : list vetor
}.

Definition n_linhas (W : ndarray2) : nat := fst (shape W).
Definition n_colunas (W : ndarray2) : nat := snd (shape W).

(** The data agree with the shape. *)
Definition bem_formada (W : ndarray2) : Prop :=
  length (linhas W) = n_linhas W /\
  Forall (fun r => length r = n_colunas W) (linhas W).

Definition entrada (W : ndarray2) (s a : nat) : Q :=
  nth a (nth s (linhas W) []) 0.

Fixpoint zip_with {A B C : Type} (f : A -> B -> C) (l : list A) (l' : list B)
  : list C :=
  match l, l' with
  | x :: t, y :: t' => f x y :: zip_with f t t'
  | _, _ => []
  end.

Definition vec_soma (u v : vetor) : vetor := zip_with Qplus u v.
Definition vec_escala (c : Q) (v : vetor) : vetor := map (Qmult c) v.

(** Python's [sum(xs)]: left to right from 0. *)
Definition soma (v : vetor) : Q := fold_left Qplus v 0.

(** [np.mean] of a one-dimensional array.  On an empty array NumPy gives
    [nan] with a warning and no exception; here the quotient by zero is 0,
    and the cycle only ever broadcasts that value over the same empty
    array. *)
Definition np_mean (v : vetor) : Q := soma v / inject_Z (Z.of_nat (length v)).

(** [np.dot(v, W)] for a one-dimensional [v] and a two-dimensional [W]: the
    lengths must agree, and the result accumulates the rows of [W] scaled by
    the entries of [v]. *)
Definition np_dot (v : vetor) (W : ndarray2) : resultado vetor :=
  if Nat.eqb (length v) (n_linhas W)
  then Ok (fold_left (fun acc xr => vec_soma acc (vec_escala (fst xr) (snd xr)))
                     (combine v (linhas W))
                     (repeat 0 (n_colunas W)))
  else Raise (ValueError "shapes not aligned").

(** [np.argmax]: the index of the first occurrence of the maximum. *)
Fixpoint argmax_aux (l : vetor) (i melhor_i : nat) (melhor : Q) : nat :=
  match l with
  | [] => melhor_i
  | y :: t =>
      if Qle_bool y melhor
      then argmax_aux t (S i) melhor_i melhor
      else argmax_aux t (S i) i y
  end.

Definition np_argmax (v : vetor) : resultado nat :=
  match v with
  | [] => Raise (ValueError "attempt to get an argmax of an empty sequence")
  | x :: t => Ok (argmax_aux t 1 0 x)
  end.

Definition mat_map (f : Q -> Q) (W : ndarray2) : ndarray2 :=
  {| shape := shape W; linhas := map (map f) (linhas W) |}.

(** [W += M], in place: the shape of [W] stays. *)
Definition mat_soma (W M : ndarray2) : ndarray2 :=
  {| shape := shape W; linhas := zip_with vec_soma (linhas W) (linhas M) |}.

(* ------------------------------------------------------------------ *)
(** ** The outside world: the two random generators *)

(** Each generator is the infinite sequence of the numbers it will return
    and the position of the next one. *)
Record Mundo : Type := mk_Mundo {
  py_fita : nat -> Q;
  py_pos : nat;
  np_fita : nat -> Q;
  np_pos : nat
}.

(** Both generators return numbers of the interval [0, 1). *)
Definition fitas_validas (w : Mundo) : Prop :=
  (forall n, 0 <= py_fita w n /\ py_fita w n < 1) /\
  (forall n, 0 <= np_fita w n /\ np_fita w n < 1).

(** [random.random()]. *)
Definition random_random : Prog Mundo Q :=
  fun w => (Ok (py_fita w (py_pos w)),
            {| py_fita := py_fita w; py_pos := S (py_pos w);
               np_fita := np_fita w; np_pos := np_pos w |}).

(** The generator of NumPy after [k] further draws. *)
Definition avanca_np (k : nat) (w : Mundo) : Mundo :=
  {| py_fita := py_fita w; py_pos := py_pos w;
     np_fita := np_fita w; np_pos := (np_pos w + k)%nat |}.

(** The array of shape (S, A) filled in row-major order with the next
    [S * A] numbers of NumPy's generator: entry (s, a) is draw number
    [s * A + a]. *)
Definition sorteio (S A : nat) (w : Mundo) : ndarray2 :=
  {| shape := (S, A);
     linhas := map (fun s => map (fun a => np_fita w (np_pos w + s * A + a)%nat)
                                 (seq 0 A))
                   (seq 0 S) |}.

(** [np.random.rand(S, A)]. *)
Definition np_random_rand (S A : nat) : Prog Mundo ndarray2 :=
  fun w => (Ok (sorteio S A w), avanca_np (S * A) w).

(* ------------------------------------------------------------------ *)
(** ** Python dictionaries, as far as the comprehension needs them *)

(** A [dict] keeps its keys in the order of first insertion; storing under a
    key that is present replaces the value where the key already sits. *)
Definition dict : Type := list (string * Q).

Fixpoint dict_set (k : string) (v : Q) (d : dict) : dict :=
  match d with
  | [] => [(k, v)]
  | (k', v') :: t =>
      if String.eqb k k' then (k', v) :: t else (k', v') :: dict_set k v t
  end.

Fixpoint dict_get (k : string) (d : dict) : option Q :=
  match d with
  | [] => None
  | (k', v') :: t => if String.eqb k k' then Some v' else dict_get k t
  end.

Definition dict_keys (d : dict) : list string := map fst d.
Definition dict_values (d : dict) : list Q := map snd d.

(** Python's [xs[i]] for a list and a non-negative index. *)
Definition list_index {A : Type} (xs : list A) (i : nat) : resultado A :=
  match nth_error xs i with
  | Some x => Ok x
  | None => Raise (IndexError "list index out of range")
  end.

(** Reading and writing the whole state of a program. *)
Definition le_estado {S : Type} : Prog S S := fun s => (Ok s, s).
Definition grava_estado {S : Type} (s' : S) : Prog S unit := fun _ => (Ok tt, s').

(* ------------------------------------------------------------------ *)
(** ** class Sentido *)

Module Sentido.

(** A sensor: a name and a read function.  The read function is any
    callable; it sees and may change the outside world, and may raise. *)
Record t : Type := mk {
  nome : string;
  funcao_leitura : Prog Mundo Q
}.

Definition init (nome : string) (funcao_leitura : Prog Mundo Q) : t :=
  mk nome funcao_leitura.

Definition ler (self : t) : Prog Mundo Q := funcao_leitura self.

End Sentido.

(** The dictionary comprehension [{s.nome: s.ler() for s in sentidos}]: for
    each sensor in order the key is evaluated, the sensor is read, and the
    value is stored into the dictionary built so far; the first exception
    ends the comprehension. *)
Fixpoint compreensao (sentidos : list Sentido.t) (acc : dict) : Prog Mundo dict :=
  match sentidos with
  | [] => ret acc
  | s :: resto =>
      (v <- Sentido.ler s ;;
       compreensao resto (dict_set (Sentido.nome s) v acc))%prog
  end.

(* ------------------------------------------------------------------ *)
(** ** class Dominio *)

Module Dominio.

Record t : Type := mk {
  nome : string;
  sentidos : list Sentido.t;
  acoes_possiveis : list string
}.

(** [__init__] stores its three arguments and checks nothing. *)
Definition init (nome : string) (sentidos_iniciais : list Sentido.t)
  (acoes_possiveis : list string) : resultado t :=
  Ok (mk nome sentidos_iniciais acoes_possiveis).

Definition observar_realidade (self : t) : Prog Mundo dict :=
  compreensao (sentidos self) [].

End Dominio.

(* ------------------------------------------------------------------ *)
(** ** class MotorEvolutivo *)

Module MotorEvolutivo.

Record t : Type := mk { pesos : ndarray2 }.

(** The methods run on the engine itself and on the world (the NumPy
    generator). *)
Definition estado : Type := (t * Mundo)%type.

Definition no_mundo {A : Type} (c : Prog Mundo A) : Prog estado A :=
  dentro snd (fun w s => (fst s, w)) c.

Definition init (n_sentidos n_acoes : nat) : Prog Mundo t :=
  (W <- np_random_rand n_sentidos n_acoes ;;
   ret (mk W))%prog.

(** [np.dot(realidade_vetor, self.pesos)]; [self] is read, not written. *)
Definition pensar (realidade_vetor : vetor) : Prog estado vetor :=
  (s <- le_estado ;;
   de_resultado (np_dot realidade_vetor (pesos (fst s))))%prog.

Definition taxa_mutacao_padrao : Q := 1 # 100.

(** [mutacao = (np.random.rand( *self.pesos.shape) - 0.5) * taxa_mutacao;
     self.pesos += mutacao]. *)
Definition evoluir (taxa_mutacao : Q) : Prog estado unit :=
  (s <- le_estado ;;
   R <- no_mundo (np_random_rand (n_linhas (pesos (fst s)))
                                 (n_colunas (pesos (fst s)))) ;;
   let mutacao := mat_map (fun u => (u - (1 # 2)) * taxa_mutacao) R in
   s' <- le_estado ;;
   grava_estado (mk (mat_soma (pesos (fst s')) mutacao), snd s'))%prog.

End MotorEvolutivo.

(* ------------------------------------------------------------------ *)
(** ** class NucleoEtico *)

Module NucleoEtico.

Record t : Type := mk { imperativos : list Sentido.t }.

Definition init (imperativos_eticos : list Sentido.t) : t :=
  mk imperativos_eticos.

(** [sum(realidade_etica.values())]. *)
Definition calcular_dissonancia (self : t) (realidade_etica : dict) : Q :=
  soma (dict_values realidade_etica).

Definition observar_realidade_etica (self : t) : Prog Mundo dict :=
  compreensao (imperativos self) [].

End NucleoEtico.

(* ------------------------------------------------------------------ *)
(** ** class Gaia *)

(** [decisao_bruta - dissonancia * np.mean(decisao_bruta)]: one scalar,
    subtracted from every entry. *)
Definition temperar (decisao_bruta : vetor) (dissonancia : Q) : vetor :=
  let desvio := dissonancia * np_mean decisao_bruta in
  map (fun x => x - desvio) decisao_bruta.

Module Gaia.

Record t : Type := mk {
  dominio : Dominio.t;
  motor : MotorEvolutivo.t;
  nucleo_etico : NucleoEtico.t
}.

Definition estado : Type := (t * Mundo)%type.

Definition no_mundo {A : Type} (c : Prog Mundo A) : Prog estado A :=
  dentro snd (fun w s => (fst s, w)) c.

Definition no_motor {A : Type} (c : Prog MotorEvolutivo.estado A)
  : Prog estado A :=
  dentro (fun s => (motor (fst s), snd s))
         (fun ms s => (mk (dominio (fst s)) (fst ms) (nucleo_etico (fst s)),
                       snd ms))
         c.

(** The two imperatives every agent is built with. *)
Definition imperativos_padrao : list Sentido.t :=
  [ Sentido.init "dano_sistemico"
      (x <- random_random ;; ret (x * (1 # 10)))%prog;
    Sentido.init "bem-estar_agentes" random_random ].

Definition init (dominio : Dominio.t) : Prog Mundo t :=
  (m <- MotorEvolutivo.init (length (Dominio.sentidos dominio))
                            (length (Dominio.acoes_possiveis dominio)) ;;
   ret (mk dominio m (NucleoEtico.init imperativos_padrao)))%prog.

Definition viver_um_ciclo : Prog estado string :=
  (self <- le_estado ;;
   realidade_dict <-
     no_mundo (Dominio.observar_realidade (dominio (fst self))) ;;
   let realidade_vetor := dict_values realidade_dict in
   decisao_bruta <- no_motor (MotorEvolutivo.pensar realidade_vetor) ;;
   realidade_etica_dict <-
     no_mundo (NucleoEtico.observar_realidade_etica (nucleo_etico (fst self))) ;;
   let dissonancia :=
     NucleoEtico.calcular_dissonancia (nucleo_etico (fst self))
                                      realidade_etica_dict in
   let decisao_final := temperar decisao_bruta dissonancia in
   _ <- no_motor (MotorEvolutivo.evoluir MotorEvolutivo.taxa_mutacao_padrao) ;;
   i <- de_resultado (np_argmax decisao_final) ;;
   de_resultado (list_index (Dominio.acoes_possiveis (dominio (fst self))) i))%prog.

End Gaia.

(* ------------------------------------------------------------------ *)
(** ** The parts of a cycle, named *)

(** Lines 79 to 91 of [viver_um_ciclo]: observe, score, temper.  The value is
    the triple (raw preference, dissonance, final preference). *)
Definition ponderar : Prog Gaia.estado (vetor * Q * vetor) :=
  (self <- le_estado ;;
   realidade_dict <-
     Gaia.no_mundo (Dominio.observar_realidade (Gaia.dominio (fst self))) ;;
   decisao_bruta <-
     Gaia.no_motor (MotorEvolutivo.pensar (dict_values realidade_dict)) ;;
   realidade_etica_dict <-
     Gaia.no_mundo
       (NucleoEtico.observar_realidade_etica (Gaia.nucleo_etico (fst self))) ;;
   let dissonancia :=
     NucleoEtico.calcular_dissonancia (Gaia.nucleo_etico (fst self))
                                      realidade_etica_dict in
   ret (decisao_bruta, dissonancia, temperar decisao_bruta dissonancia))%prog.

(** The expression of line 96: [acoes_possiveis[np.argmax(decisao_final)]]. *)
Definition selecionar (decisao_final : vetor) : Prog Gaia.estado string :=
  (self <- le_estado ;;
   i <- de_resultado (np_argmax decisao_final) ;;
   de_resultado
     (list_index (Dominio.acoes_possiveis (Gaia.dominio (fst self))) i))%prog.

(** Line 94. *)
Definition adaptar : Prog Gaia.estado unit :=
  Gaia.no_motor (MotorEvolutivo.evoluir MotorEvolutivo.taxa_mutacao_padrao).

(** The decision path alone: a cycle without its mutation step. *)
Definition decidir : Prog Gaia.estado string :=
  (p <- ponderar ;; selecionar (snd p))%prog.

(** The cycle in the order of the specification (section 4.5): observing,
    scoring, tempering, selecting, adapting, and then the selected action is
    returned. *)
Definition runCycle_spec : Prog Gaia.estado string :=
  (p <- ponderar ;;
   selecionada <- selecionar (snd p) ;;
   _ <- adaptar ;;
   ret selecionada)%prog.

(** The action that line 96 returns for a final preference. *)
Definition escolha (g : Gaia.t) (decisao_final : vetor) : resultado string :=
  match np_argmax decisao_final with
  | Ok i => list_index (Dominio.acoes_possiveis (Gaia.dominio g)) i
  | Raise e => Raise e
  end.

(** The agent after the mutation of line 94 in world [w]. *)
Definition mutado (g : Gaia.t) (w : Mundo) : Gaia.t :=
  let W := MotorEvolutivo.pesos (Gaia.motor g) in
  Gaia.mk (Gaia.dominio g)
    (MotorEvolutivo.mk
       (mat_soma W
          (mat_map (fun u => (u - (1 # 2)) * MotorEvolutivo.taxa_mutacao_padrao)
                   (sorteio (n_linhas W) (n_colunas W) w))))
    (Gaia.nucleo_etico g).

(** The sum over the rows [s < S] of [v[s] * W[s][a]]. *)
Definition produto_coluna (v : vetor) (W : ndarray2) (a : nat) : Q :=
  fold_right Qplus 0
    (map (fun s => nth s v 0 * entrada W s a) (seq 0 (n_linhas W))).

(** Vectors equal entry by entry. *)
Definition vec_eq (u v : vetor) : Prop := Forall2 Qeq u v.

(** [i] is an index at which [v] is maximal, and the lowest such index. *)
Definition primeiro_maximo (v : vetor) (i : nat) : Prop :=
  (i < length v)%nat /\
  (forall j, (j < length v)%nat -> nth j v 0 <= nth i v 0) /\
  (forall k, (k < length v)%nat ->
             (forall j, (j < length v)%nat -> nth j v 0 <= nth k v 0) ->
             (i <= k)%nat).

(* ------------------------------------------------------------------ *)
(** ** Agents and their states *)

(** The states an agent goes through: built by [Gaia.__init__] from a domain
    that [Dominio.__init__] returned, then any number of cycles, finished or
    aborted. *)
Inductive alcancavel : Gaia.t -> Prop :=
| alc_init : forall nome sentidos acoes d w g w',
    Dominio.init nome sentidos acoes = Ok d ->
    Gaia.init d w = (Ok g, w') ->
    alcancavel g
| alc_ciclo : forall g w r g' w',
    alcancavel g ->
    Gaia.viver_um_ciclo (g, w) = (r, (g', w')) ->
    alcancavel g'.

(** What [Gaia.__init__] establishes and every cycle keeps: a weight matrix
    with one row per sensor and one column per action. *)
Definition dimensionada (g : Gaia.t) : Prop :=
  bem_formada (MotorEvolutivo.pesos (Gaia.motor g)) /\
  n_linhas (MotorEvolutivo.pesos (Gaia.motor g))
    = length (Dominio.sentidos (Gaia.dominio g)) /\
  n_colunas (MotorEvolutivo.pesos (Gaia.motor g))
    = length (Dominio.acoes_possiveis (Gaia.dominio g)).

(** A sensor whose read returns a value in every world. *)
Definition nao_falha (s : Sentido.t) : Prop :=
  forall w, exists v w', Sentido.ler s w = (Ok v, w').

(** A sensor replaced by a fixed value: every read returns [c]. *)
Definition fixo_em (s : Sentido.t) (c : Q) : Prop :=
  forall w, fst (Sentido.ler s w) = Ok c.

(** Two sensors of the sequence carry the same name. *)
Definition nomes_repetidos (sentidos : list Sentido.t) : Prop :=
  exists i j si sj,
    (i < j)%nat /\
    nth_error sentidos i = Some si /\
    nth_error sentidos j = Some sj /\
    Sentido.nome si = Sentido.nome sj.

(** Reading every sensor of a sequence once, in order. *)
Fixpoint ler_todos (sentidos : list Sentido.t) : Prog Mundo (list Q) :=
  match sentidos with
  | [] => ret []
  | s :: resto =>
      (v <- Sentido.ler s ;;
       vs <- ler_todos resto ;;
       ret (v :: vs))%prog
  end.

(** Storing a list of readings under their names, one after the other. *)
Definition guardar_todos (nomes : list string) (valores : list Q) (acc : dict)
  : dict :=
  fold_left (fun d kv => dict_set (fst kv) (snd kv) d) (combine nomes valores) acc.

(* ------------------------------------------------------------------ *)
(** ** Concrete agents *)

Definition sentido_fixo (nome : string) (c : Q) : Sentido.t :=
  Sentido.init nome (ret c).

Definition sentido_avariado (nome : string) : Sentido.t :=
  Sentido.init nome (raise (OutraExcecao "RuntimeError")).

(** A world whose generators return [p] and [n] for ever. *)
Definition mundo_constante (p n : Q) : Mundo :=
  {| py_fita := fun _ => p; py_pos := 0; np_fita := fun _ => n; np_pos := 0 |}.

(** The scenario of the specification: two sensors fixed at 1 and 0, three
    actions, weights [[2,0,1],[0,1,3]]. *)
Definition dominio_cenario : Dominio.t :=
  Dominio.mk "cenario"
    [sentido_fixo "s0" 1; sentido_fixo "s1" 0]
    ["A0"; "A1"; "A2"].

Definition pesos_cenario : ndarray2 :=
  {| shape := (2%nat, 3%nat); linhas := [[2; 0; 1]; [0; 1; 3]] |}.

Definition gaia_cenario : Gaia.t :=
  Gaia.mk dominio_cenario (MotorEvolutivo.mk pesos_cenario)
          (NucleoEtico.init Gaia.imperativos_padrao).

(** The demonstration domain of the source, with sensors that read
    [random.random()]. *)
Definition dominio_web : Dominio.t :=
  Dominio.mk "Análise de Estratégia de Negócios"
    [ Sentido.init "competicao_mercado" random_random;
      Sentido.init "satisfacao_cliente" random_random ]
    ["LANÇAR_NOVO_PRODUTO"; "FOCAR_EM_RETENCAO"; "EXPANDIR_PARA_NOVO_MERCADO"].

(** A domain with no action, one with a repeated sensor name, and one with a
    sensor that raises. *)
Definition dominio_sem_acoes : Dominio.t :=
  Dominio.mk "vazio" [sentido_fixo "s0" 1] [].

Definition dominio_repetido : Dominio.t :=
  Dominio.mk "repetido" [sentido_fixo "s" 1; sentido_fixo "s" 2] ["A0"; "A1"].

Definition dominio_avariado : Dominio.t :=
  Dominio.mk "avariado" [sentido_fixo "s0" 1; sentido_avariado "s1"] ["A0"; "A1"].

(** The agent [Gaia(dominio)] and the world its construction leaves
    ([Gaia.__init__] raises nothing; the second case is never taken). *)
Definition gaia_de (d : Dominio.t) (w : Mundo) : Gaia.estado :=
  match Gaia.init d w with
  | (Ok g, w') => (g, w')
  | (Raise _, w') =>
      (Gaia.mk d (MotorEvolutivo.mk (mk_ndarray2 (0%nat, 0%nat) []))
               (NucleoEtico.init []), w')
  end.

Definition gaia_web : Gaia.estado :=
  gaia_de dominio_web (mundo_constante (1 # 3) (1 # 4)).

Definition gaia_sem_acoes : Gaia.estado :=
  gaia_de dominio_sem_acoes (mundo_constante 0 0).

Definition gaia_repetido : Gaia.estado :=
  gaia_de dominio_repetido (mundo_constante 0 0).

(* ------------------------------------------------------------------ *)
(** ** The dialogue function of the web interface *)

(** Python's [sub in s] on strings: [sub] occurs in [s] at some position
    (the empty string occurs in every string). *)
Fixpoint str_contem (sub s : string) : bool :=
  if String.prefix sub s then true
  else match s with
       | EmptyString => false
       | String _ s' => str_contem sub s'
       end.

(** Python's [max(d, key=d.get)]: the keys are visited in the order of the
    dictionary, the first one starts as the best, and a later key replaces
    it when its value is strictly greater.  A key without a value would make
    the comparison fail with a [TypeError].  On the empty dictionary [max]
    raises a [ValueError] (the wording of its message varies with the
    version of Python). *)
Fixpoint max_por_valor_aux (chaves : list string) (d : dict)
  (melhor : string) (melhor_v : Q) : resultado string :=
  match chaves with
  | [] => Ok melhor
  | k :: resto =>
      match dict_get k d with
      | Some v =>
          if Qle_bool v melhor_v
          then max_por_valor_aux resto d melhor melhor_v
          else max_por_valor_aux resto d k v
      | None => Raise (OutraExcecao "TypeError")
      end
  end.

Definition max_por_valor (d : dict) : resultado string :=
  match dict_keys d with
  | [] => Raise (ValueError "max() arg is an empty sequence")
  | k :: resto =>
      match dict_get k d with
      | Some v => max_por_valor_aux resto d k v
      | None => Raise (OutraExcecao "TypeError")
      end
  end.

Definition resposta_previsao : string :=
  "Analisando trajetórias futuras... A simulação indica que a estratégia dominante será **'FOCAR_EM_RETENCAO'**, pois o sistema está otimizando para a estabilidade de longo prazo em vez de crescimento arriscado.".

Definition resposta_analise (causa_provavel : string) : string :=
  "Analisando as influências... O fator mais crítico no estado atual do sistema parece ser a **'"
  ++ causa_provavel
  ++ "'**. Flutuações neste indicador estão guiando a maioria das decisões estratégicas.".

Definition resposta_padrao : string :=
  "Sua pergunta é interessante. Para dar uma resposta precisa, preciso que você a reformule. Você busca entender o estado atual, prever o futuro ou analisar a causa de um problema?".

Section Conversa.

(** [str.lower] of Python follows the Unicode case mappings; it is taken as
    given, and what is proved holds whatever it returns. *)
Variable str_lower : string -> string.

(** [conversar_com_gaia(prompt_usuario, historico_chat)], run on the global
    [gaia_instance] and the world.  The history is not looked at.  The pause
    [time.sleep(1.5)] before the return touches neither. *)
Definition conversar_com_gaia (prompt_usuario : string)
  (historico_chat : list (string * string)) : Prog Gaia.estado string :=
  if str_contem "preveja" (str_lower prompt_usuario)
     || str_contem "previsão" (str_lower prompt_usuario)
  then ret resposta_previsao
  else if str_contem "por que" (str_lower prompt_usuario)
          || str_contem "analise" (str_lower prompt_usuario)
  then
    (gaia_instance <- le_estado ;;
     realidade <-
       Gaia.no_mundo
         (Dominio.observar_realidade (Gaia.dominio (fst gaia_instance))) ;;
     causa_provavel <- de_resultado (max_por_valor realidade) ;;
     ret (resposta_analise causa_provavel))%prog
  else ret resposta_padrao.

End Conversa.

(** A lower-casing of the letters A to Z, enough for prompts written in
    ASCII. *)
Definition ascii_lower (c : Ascii.ascii) : Ascii.ascii :=
  let n := Ascii.nat_of_ascii c in
  if (65 <=? n)%nat && (n <=? 90)%nat then Ascii.ascii_of_nat (n + 32) else c.

Fixpoint str_lower_ascii (s : string) : string :=
  match s with
  | EmptyString => EmptyString
  | String c s' => String (ascii_lower c) (str_lower_ascii s')
  end.

(** The generator of [random] after [k] further draws. *)
Definition avanca_py (k : nat) (w : Mundo) : Mundo :=
  {| py_fita := py_fita w; py_pos := (k + py_pos w)%nat;
     np_fita := np_fita w; np_pos := np_pos w |}.

(* ------------------------------------------------------------------ *)
(** ** The program over the arithmetic of the machine *)

(** The embedding above computes on exact rationals.  What the program does
    on its [float64] numbers is a matter of which arithmetic the same lines
    are run with: the following record is an arithmetic (the literals and the
    operations on numbers that the core uses), and [Maquina] is the core
    once more, line for line, over any such arithmetic. *)
Record Aritmetica : Type := mk_Aritmetica {
  num : Type;
  n_zero : num;                (* 0.0 *)
  n_meio : num;                (* the literal 0.5 *)
  n_centesimo : num;           (* the literal 0.01 *)
  n_decimo : num;              (* the literal 0.1 *)
  n_add : num -> num -> num;
  n_sub : num -> num -> num;
  n_mul : num -> num -> num;
  n_div : num -> num -> num;
  n_le : num -> num -> bool;   (* x <= y *)
  n_isnan : num -> bool;
  n_de_nat : nat -> num        (* a count, as a number *)
}.

(** The reductions whose order of summation belongs to the library and not
    to the program: [sum] of Python, the sum inside [np.mean], and the inner
    product of a vector with one column inside [np.dot]. *)
Record Reducoes (A : Aritmetica) : Type := mk_Reducoes {
  py_sum : list (num A) -> num A;
  np_sum : list (num A) -> num A;
  np_inner : list (num A) -> list (num A) -> num A
}.

Module Maquina.

Definition vetor (A : Aritmetica) : Type := list (num A).

Record ndarray2 (A : Aritmetica) : Type := mk_ndarray2 {
  shape : nat * nat;
  linhas : list (vetor A)
}.

Definition n_linhas {A : Aritmetica} (W : ndarray2 A) : nat := fst (shape W).
Definition n_colunas {A : Aritmetica} (W : ndarray2 A) : nat := snd (shape W).

(** Entry (s, a), when there is one. *)
Definition entrada {A : Aritmetica} (W : ndarray2 A) (s a : nat) : option (num A) :=
  match nth_error (linhas W) s with
  | Some linha => nth_error linha a
  | None => None
  end.

Definition coluna {A : Aritmetica} (W : ndarray2 A) (a : nat) : vetor A :=
  flat_map (fun linha => match nth_error linha a with
                         | Some x => [x]
                         | None => []
                         end)
           (linhas W).

(** [np.mean]: the sum of the entries divided by their number. *)
Definition np_mean {A : Aritmetica} (R : Reducoes A) (v : vetor A) : num A :=
  n_div A (np_sum R v) (n_de_nat A (length v)).

(** [np.dot(v, W)]: the lengths must agree; entry [a] of the result is the
    inner product of [v] with column [a] of [W]. *)
Definition np_dot {A : Aritmetica} (R : Reducoes A) (v : vetor A) (W : ndarray2 A)
  : resultado (vetor A) :=
  if Nat.eqb (length v) (n_linhas W)
  then Ok (map (fun a => np_inner R v (coluna W a)) (seq 0 (n_colunas W)))
  else Raise (ValueError "shapes not aligned").

(** [np.argmax]: the first entry that is a NaN, or else the first occurrence
    of the maximum; a later entry replaces the best one when it is not below
    or equal to it. *)
Fixpoint argmax_aux {A : Aritmetica} (l : vetor A) (i melhor_i : nat)
  (melhor : num A) : nat :=
  match l with
  | [] => melhor_i
  | y :: t =>
      if n_le A y melhor then argmax_aux t (S i) melhor_i melhor
      else if n_isnan A y then i
      else argmax_aux t (S i) i y
  end.

Definition np_argmax {A : Aritmetica} (v : vetor A) : resultado nat :=
  match v with
  | [] => Raise (ValueError "attempt to get an argmax of an empty sequence")
  | x :: t => if n_isnan A x then Ok 0%nat else Ok (argmax_aux t 1 0 x)
  end.

Definition mat_map {A : Aritmetica} (f : num A -> num A) (W : ndarray2 A)
  : ndarray2 A :=
  {| shape := shape W; linhas := map (map f) (linhas W) |}.

Definition mat_soma {A : Aritmetica} (W M : ndarray2 A) : ndarray2 A :=
  {| shape := shape W;
     linhas := zip_with (zip_with (n_add A)) (linhas W) (linhas M) |}.

(** The two generators, returning numbers of the arithmetic. *)
Record Mundo (A : Aritmetica) : Type := mk_Mundo {
  py_fita : nat -> num A;
  py_pos : nat;
  np_fita : nat -> num A;
  np_pos : nat
}.

Definition random_random {A : Aritmetica} : Prog (Mundo A) (num A) :=
  fun w => (Ok (py_fita w (py_pos w)),
            {| py_fita := py_fita w; py_pos := S (py_pos w);
               np_fita := np_fita w; np_pos := np_pos w |}).

Definition avanca_np {A : Aritmetica} (k : nat) (w : Mundo A) : Mundo A :=
  {| py_fita := py_fita w; py_pos := py_pos w;
     np_fita := np_fita w; np_pos := (np_pos w + k)%nat |}.

Definition sorteio {A : Aritmetica} (S A' : nat) (w : Mundo A) : ndarray2 A :=
  {| shape := (S, A');
     linhas := map (fun s => map (fun a => np_fita w (np_pos w + s * A' + a)%nat)
                                 (seq 0 A'))
                   (seq 0 S) |}.

Definition np_random_rand {A : Aritmetica} (S A' : nat)
  : Prog (Mundo A) (ndarray2 A) :=
  fun w => (Ok (sorteio S A' w), avanca_np (S * A') w).

(** The world in which draw number [k] of NumPy's generator is [x]. *)
Definition com_sorteio {A : Aritmetica} (k : nat) (x : num A) (w : Mundo A)
  : Mundo A :=
  {| py_fita := py_fita w; py_pos := py_pos w;
     np_fita := fun n => if Nat.eqb n k then x else np_fita w n;
     np_pos := np_pos w |}.

Definition dict (A : Aritmetica) : Type := list (string * num A).

Fixpoint dict_set {A : Aritmetica} (k : string) (v : num A) (d : dict A) : dict A :=
  match d with
  | [] => [(k, v)]
  | (k', v') :: t =>
      if String.eqb k k' then (k', v) :: t else (k', v') :: dict_set k v t
  end.

Definition dict_values {A : Aritmetica} (d : dict A) : vetor A := map snd d.

Module Sentido.

Record t (A : Aritmetica) : Type := mk {
  nome : string;
  funcao_leitura : Prog (Mundo A) (num A)
}.

Definition init {A : Aritmetica} (nome : string)
  (funcao_leitura : Prog (Mundo A) (num A)) : t A :=
  mk nome funcao_leitura.

Definition ler {A : Aritmetica} (self : t A) : Prog (Mundo A) (num A) :=
  funcao_leitura self.

End Sentido.

Fixpoint compreensao {A : Aritmetica} (sentidos : list (Sentido.t A))
  (acc : dict A) : Prog (Mundo A) (dict A) :=
  match sentidos with
  | [] => ret acc
  | s :: resto =>
      (v <- Sentido.ler s ;;
       compreensao resto (dict_set (Sentido.nome s) v acc))%prog
  end.

Module Dominio.

Record t (A : Aritmetica) : Type := mk {
  nome : string;
  sentidos : list (Sentido.t A);
  acoes_possiveis : list string
}.

Definition init {A : Aritmetica} (nome : string)
  (sentidos_iniciais : list (Sentido.t A)) (acoes_possiveis : list string)
  : resultado (t A) :=
  Ok (mk nome sentidos_iniciais acoes_possiveis).

Definition observar_realidade {A : Aritmetica} (self : t A)
  : Prog (Mundo A) (dict A) :=
  compreensao (sentidos self) [].

End Dominio.

Module MotorEvolutivo.

Record t (A : Aritmetica) : Type := mk { pesos : ndarray2 A }.

Definition estado (A : Aritmetica) : Type := (t A * Mundo A)%type.

Definition no_mundo {A : Aritmetica} {X : Type} (c : Prog (Mundo A) X)
  : Prog (estado A) X :=
  dentro snd (fun w s => (fst s, w)) c.

Definition init {A : Aritmetica} (n_sentidos n_acoes : nat) : Prog (Mundo A) (t A) :=
  (W <- np_random_rand n_sentidos n_acoes ;;
   ret (mk W))%prog.

Definition pensar {A : Aritmetica} (R : Reducoes A) (realidade_vetor : vetor A)
  : Prog (estado A) (vetor A) :=
  (s <- le_estado ;;
   de_resultado (np_dot R realidade_vetor (pesos (fst s))))%prog.

Definition taxa_mutacao_padrao (A : Aritmetica) : num A := n_centesimo A.

(** [mutacao = (np.random.rand( *self.pesos.shape) - 0.5) * taxa_mutacao;
     self.pesos += mutacao], every operation in the arithmetic. *)
Definition evoluir {A : Aritmetica} (taxa_mutacao : num A) : Prog (estado A) unit :=
  (s <- le_estado ;;
   R <- no_mundo (np_random_rand (n_linhas (pesos (fst s)))
                                 (n_colunas (pesos (fst s)))) ;;
   let mutacao :=
     mat_map (fun u => n_mul A (n_sub A u (n_meio A)) taxa_mutacao) R in
   s' <- le_estado ;;
   grava_estado (mk (mat_soma (pesos (fst s')) mutacao), snd s'))%prog.

End MotorEvolutivo.

Module NucleoEtico.

Record t (A : Aritmetica) : Type := mk { imperativos : list (Sentido.t A) }.

Definition init {A : Aritmetica} (imperativos_eticos : list (Sentido.t A)) : t A :=
  mk imperativos_eticos.

Definition calcular_dissonancia {A : Aritmetica} (R : Reducoes A) (self : t A)
  (realidade_etica : dict A) : num A :=
  py_sum R (dict_values realidade_etica).

Definition observar_realidade_etica {A : Aritmetica} (self : t A)
  : Prog (Mundo A) (dict A) :=
  compreensao (imperativos self) [].

End NucleoEtico.

(** [decisao_bruta - dissonancia * np.mean(decisao_bruta)]. *)
Definition temperar {A : Aritmetica} (R : Reducoes A) (decisao_bruta : vetor A)
  (dissonancia : num A) : vetor A :=
  let desvio := n_mul A dissonancia (np_mean R decisao_bruta) in
  map (fun x => n_sub A x desvio) decisao_bruta.

Module Gaia.

Record t (A : Aritmetica) : Type := mk {
  dominio : Dominio.t A;
  motor : MotorEvolutivo.t A;
  nucleo_etico : NucleoEtico.t A
}.

Definition estado (A : Aritmetica) : Type := (t A * Mundo A)%type.

Definition no_mundo {A : Aritmetica} {X : Type} (c : Prog (Mundo A) X)
  : Prog (estado A) X :=
  dentro snd (fun w s => (fst s, w)) c.

Definition no_motor {A : Aritmetica} {X : Type}
  (c : Prog (MotorEvolutivo.estado A) X) : Prog (estado A) X :=
  dentro (fun s => (motor (fst s), snd s))
         (fun ms s => (mk (dominio (fst s)) (fst ms) (nucleo_etico (fst s)),
                       snd ms))
         c.

Definition imperativos_padrao (A : Aritmetica) : list (Sentido.t A) :=
  [ Sentido.init "dano_sistemico"
      (x <- random_random ;; ret (n_mul A x (n_decimo A)))%prog;
    Sentido.init "bem-estar_agentes" random_random ].

Definition init {A : Aritmetica} (dominio : Dominio.t A) : Prog (Mundo A) (t A) :=
  (m <- MotorEvolutivo.init (length (Dominio.sentidos dominio))
                            (length (Dominio.acoes_possiveis dominio)) ;;
   ret (mk dominio m (NucleoEtico.init (imperativos_padrao A))))%prog.

Definition viver_um_ciclo {A : Aritmetica} (R : Reducoes A)
  : Prog (estado A) string :=
  (self <- le_estado ;;
   realidade_dict <-
     no_mundo (Dominio.observar_realidade (dominio (fst self))) ;;
   let realidade_vetor := dict_values realidade_dict in
   decisao_bruta <- no_motor (MotorEvolutivo.pensar R realidade_vetor) ;;
   realidade_etica_dict <-
     no_mundo (NucleoEtico.observar_realidade_etica (nucleo_etico (fst self))) ;;
   let dissonancia :=
     NucleoEtico.calcular_dissonancia R (nucleo_etico (fst self))
                                      realidade_etica_dict in
   let decisao_final := temperar R decisao_bruta dissonancia in
   _ <- no_motor (MotorEvolutivo.evoluir (MotorEvolutivo.taxa_mutacao_padrao A)) ;;
   i <- de_resultado (np_argmax decisao_final) ;;
   de_resultado (list_index (Dominio.acoes_possiveis (dominio (fst self))) i))%prog.

End Gaia.

End Maquina.

(** Exact arithmetic: the rationals, with no NaN. *)
Definition exata : Aritmetica :=
  {| num := Q;
     n_zero := 0;
     n_meio := 1 # 2;
     n_centesimo := 1 # 100;
     n_decimo := 1 # 10;
     n_add := Qplus;
     n_sub := Qminus;
     n_mul := Qmult;
     n_div := Qdiv;
     n_le := Qle_bool;
     n_isnan := fun _ => false;
     n_de_nat := fun n => inject_Z (Z.of_nat n) |}.

#[local] Set Warnings "-inexact-float".

(** The arithmetic of the program: IEEE 754 binary64, the [float] of Python
    and the [float64] of NumPy, with rounding to nearest even.  The decimal
    literals stand for the nearest binary64 number, as in Python. *)
Definition binary64 : Aritmetica :=
  {| num := PrimFloat.float;
     n_zero := 0%float;
     n_meio := 0.5%float;
     n_centesimo := 0.01%float;
     n_decimo := 0.1%float;
     n_add := PrimFloat.add;
     n_sub := PrimFloat.sub;
     n_mul := PrimFloat.mul;
     n_div := PrimFloat.div;
     n_le := PrimFloat.leb;
     n_isnan := PrimFloat.is_nan;
     n_de_nat := fun n => Nat.iter n (fun x => PrimFloat.add x 1%float) 0%float |}.

#[local] Set Warnings "+inexact-float".

(** Reductions taken from left to right, starting from zero.  Exact
    arithmetic gives the same sums in every order. *)
Definition em_sequencia (A : Aritmetica) : Reducoes A :=
  {| py_sum := fun v => fold_left (n_add A) v (n_zero A);
     np_sum := fun v => fold_left (n_add A) v (n_zero A);
     np_inner := fun u v =>
       fold_left (n_add A) (zip_with (n_mul A) u v) (n_zero A) |}.

#[local] Set Warnings "-inexact-float".

(** An agent on binary64 numbers: one sensor fixed at 1.0, three actions,
    weights [[1.0, 1.0000000000000002, -1e17]], and the two imperatives of
    [Gaia.__init__] in a world whose generator of [random] returns 0.0 and
    then 0.5, so that the dissonance is 0.5. *)
Definition gaia_binary64 : Maquina.Gaia.t binary64 :=
  Maquina.Gaia.mk
    (Maquina.Dominio.mk "binary64"
       [Maquina.Sentido.init (A := binary64) "s0" (ret 1%float)]
       ["A0"; "A1"; "A2"])
    (Maquina.MotorEvolutivo.mk
       (@Maquina.mk_ndarray2 binary64 (1%nat, 3%nat)
          [[1%float; 0x1.0000000000001p0%float; (-1e17)%float]]))
    (Maquina.NucleoEtico.init (Maquina.Gaia.imperativos_padrao binary64)).

Definition mundo_binary64 : Maquina.Mundo binary64 :=
  @Maquina.mk_Mundo binary64
    (fun n => if Nat.eqb n 0 then 0%float else 0.5%float) 0
    (fun _ => 0.96875%float) 0.

(** The engine whose only weight is [x], on binary64 numbers. *)
Definition motor_binary64 (x : PrimFloat.float) : Maquina.MotorEvolutivo.t binary64 :=
  Maquina.MotorEvolutivo.mk (@Maquina.mk_ndarray2 binary64 (1%nat, 1%nat) [[x]]).

(** The world whose generator of NumPy returns [u] for ever. *)
Definition mundo_sorteando (u : PrimFloat.float) : Maquina.Mundo binary64 :=
  @Maquina.mk_Mundo binary64 (fun _ => 0%float) 0 (fun _ => u) 0.

(** The only weight after [evoluir taxa] from weight [x] with draw [u]. *)
Definition peso_evoluido (taxa x u : PrimFloat.float) : option PrimFloat.float :=
  Maquina.entrada
    (Maquina.MotorEvolutivo.pesos
       (fst (snd (Maquina.MotorEvolutivo.evoluir (A := binary64) taxa
                    (motor_binary64 x, mundo_sorteando u)))))
    0 0.

#[local] Set Warnings "+inexact-float".

(* ================================================================== *)
(** * Properties *)

(* ------------------------------------------------------------------ *)
(** ** The program monad *)

Lemma bind_ok {S A B : Type} (c : Prog S A) (k : A -> Prog S B) s a s' :
  c s = (Ok a, s') -> bind c k s = k a s'.
Proof. intros H; unfold bind; rewrite H; reflexivity. Qed.

Lemma bind_raise {S A B : Type} (c : Prog S A) (k : A -> Prog S B) s e s' :
  c s = (Raise e, s') -> bind c k s = (Raise e, s').
Proof. intros H; unfold bind; rewrite H; reflexivity. Qed.

Lemma bind_inv_ok {S A B : Type} (c : Prog S A) (k : A -> Prog S B) s b s2 :
  bind c k s = (Ok b, s2) ->
  exists a s1, c s = (Ok a, s1) /\ k a s1 = (Ok b, s2).
Proof.
  unfold bind; destruct (c s) as [[a | e] s1]; intros H.
  - exists a, s1; split; [reflexivity | exact H].
  - discriminate H.
Qed.

(* ------------------------------------------------------------------ *)
(** ** Vectors *)

Lemma zip_with_length {A B C : Type} (f : A -> B -> C) l l' :
  length (zip_with f l l') = Nat.min (length l) (length l').
Proof.
  revert l'; induction l as [| x t IH]; intros [| y t']; simpl; auto.
Qed.

Lemma nth_vec_soma (u v : vetor) a :
  (a < length u)%nat -> (a < length v)%nat ->
  nth a (vec_soma u v) 0 = nth a u 0 + nth a v 0.
Proof.
  unfold vec_soma; revert v a; induction u as [| x t IH]; intros [| y t'] a Hu Hv;
    simpl in *; try lia.
  destruct a as [| a]; [reflexivity |].
  apply IH; lia.
Qed.

Lemma nth_vec_escala (c : Q) (v : vetor) a :
  nth a (vec_escala c v) 0 == c * nth a v 0.
Proof.
  unfold vec_escala; revert a; induction v as [| x t IH]; intros [| a]; simpl;
    try ring; try reflexivity.
  apply IH.
Qed.

Lemma vec_escala_length c v : length (vec_escala c v) = length v.
Proof. apply length_map. Qed.

Lemma vec_soma_length u v : length u = length v -> length (vec_soma u v) = length u.
Proof. intros H; unfold vec_soma; rewrite zip_with_length, <- H; lia. Qed.

Lemma soma_acc (v : vetor) (x : Q) : fold_left Qplus v x == x + soma v.
Proof.
  unfold soma; revert x; induction v as [| y t IH]; intros x; simpl.
  - ring.
  - rewrite IH, (IH (0 + y)); ring.
Qed.

Lemma soma_cons (x : Q) (v : vetor) : soma (x :: v) == x + soma v.
Proof. unfold soma at 1; simpl; rewrite soma_acc; ring. Qed.

(** The accumulation of scaled rows, entry by entry. *)
Lemma acumula_linhas_length (A : nat) (rows : list vetor) :
  Forall (fun r => length r = A) rows ->
  forall (v acc : vetor),
    length acc = A ->
    length (fold_left (fun acc xr => vec_soma acc (vec_escala (fst xr) (snd xr)))
                      (combine v rows) acc) = A.
Proof.
  induction 1 as [| r rows Hr _ IH]; intros v acc Hacc.
  - destruct v; exact Hacc.
  - destruct v as [| x v]; [exact Hacc |]; simpl.
    apply IH. rewrite vec_soma_length; [exact Hacc |].
    rewrite vec_escala_length; congruence.
Qed.

Lemma acumula_linhas_nth (A : nat) (rows : list vetor) :
  Forall (fun r => length r = A) rows ->
  forall (v acc : vetor) (a : nat),
    length acc = A -> length v = length rows -> (a < A)%nat ->
    nth a (fold_left (fun acc xr => vec_soma acc (vec_escala (fst xr) (snd xr)))
                     (combine v rows) acc) 0
    == nth a acc 0
       + fold_right Qplus 0
           (map (fun s => nth s v 0 * nth a (nth s rows []) 0)
                (seq 0 (length rows))).
Proof.
  induction 1 as [| r rows Hr _ IH]; intros v acc a Hacc Hv Ha.
  - destruct v; simpl; ring.
  - destruct v as [| x v]; [discriminate Hv |].
    injection Hv as Hv.
    cbn [combine fold_left length fst snd].
    rewrite IH; try assumption.
    + rewrite nth_vec_soma by (rewrite ?vec_escala_length; lia).
      rewrite nth_vec_escala.
      cbn [seq map fold_right nth].
      rewrite <- seq_shift, map_map. cbn [nth]. ring.
    + rewrite vec_soma_length; [exact Hacc |].
      rewrite vec_escala_length; congruence.
Qed.

Lemma nth_repeat_zero n a : nth a (repeat 0 n) 0 = 0.
Proof.
  revert a; induction n as [| n IH]; intros [| a]; simpl; auto.
Qed.

Lemma nth_map_seq {A : Type} (g : nat -> A) (n i : nat) (d : A) :
  (i < n)%nat -> nth i (map g (seq 0 n)) d = g i.
Proof.
  intros Hi.
  rewrite (nth_indep _ d (g 0%nat)) by (rewrite length_map, length_seq; exact Hi).
  rewrite map_nth, seq_nth by exact Hi. reflexivity.
Qed.

Lemma nth_map_dentro {A B : Type} (f : A -> B) (l : list A) (i : nat) (d : A) (d' : B) :
  (i < length l)%nat -> nth i (map f l) d' = f (nth i l d).
Proof.
  intros Hi.
  rewrite (nth_indep _ d' (f d)) by (rewrite length_map; exact Hi).
  apply map_nth.
Qed.

Lemma nth_zip_with {A B C : Type} (f : A -> B -> C) l l' i dA dB dC :
  (i < length l)%nat -> (i < length l')%nat ->
  nth i (zip_with f l l') dC = f (nth i l dA) (nth i l' dB).
Proof.
  revert l' i; induction l as [| x t IH]; intros [| y t'] i Hl Hl';
    simpl in *; try lia.
  destruct i as [| i]; [reflexivity |].
  apply IH; lia.
Qed.

(** Adding rows without columns changes nothing. *)
Lemma zip_with_linhas_vazias (rows rows' : list vetor) :
  Forall (fun r => length r = 0%nat) rows ->
  length rows' = length rows ->
  zip_with vec_soma rows rows' = rows.
Proof.
  intros H; revert rows'; induction H as [| r rows Hr _ IH]; intros [| r' rows'] Hlen;
    simpl in *; try discriminate; [reflexivity |].
  destruct r; [| discriminate Hr].
  simpl. f_equal. apply IH. lia.
Qed.

(* ------------------------------------------------------------------ *)
(** ** np.argmax *)

Lemma argmax_aux_correto (l pre : vetor) (bi : nat) (b : Q) :
  (bi < length pre)%nat ->
  nth bi (pre ++ l) 0 = b ->
  (forall j, (j < length pre)%nat -> nth j (pre ++ l) 0 <= b) ->
  (forall j, (j < bi)%nat -> nth j (pre ++ l) 0 < b) ->
  let i := argmax_aux l (length pre) bi b in
  (i < length (pre ++ l))%nat /\
  (forall j, (j < length (pre ++ l))%nat -> nth j (pre ++ l) 0 <= nth i (pre ++ l) 0) /\
  (forall j, (j < i)%nat -> nth j (pre ++ l) 0 < nth i (pre ++ l) 0).
Proof.
  revert pre bi b; induction l as [| y t IH]; intros pre bi b Hbi Hb Hmax Hmin.
  - cbn [argmax_aux]. rewrite app_nil_r in *.
    split; [exact Hbi |]. rewrite Hb. split; assumption.
  - cbn [argmax_aux].
    assert (Hy : nth (length pre) (pre ++ y :: t) 0 = y)
      by (rewrite app_nth2, Nat.sub_diag by lia; reflexivity).
    replace (S (length pre)) with (length (pre ++ [y]))
      by (rewrite length_app; simpl; lia).
    change (y :: t) with ([y] ++ t) in *.
    rewrite app_assoc in *.
    destruct (Qle_bool y b) eqn:Hle.
    + apply Qle_bool_iff in Hle.
      apply IH; try assumption.
      * rewrite length_app; simpl; lia.
      * intros j Hj. rewrite length_app in Hj; simpl in Hj.
        destruct (Nat.eq_dec j (length pre)) as [-> | Hne].
        -- rewrite Hy; exact Hle.
        -- apply Hmax; lia.
    + assert (Hlt : b < y).
      { apply Qnot_le_lt. intros Hc. apply Qle_bool_iff in Hc. congruence. }
      apply IH.
      * rewrite length_app; simpl; lia.
      * exact Hy.
      * intros j Hj. rewrite length_app in Hj; simpl in Hj.
        destruct (Nat.eq_dec j (length pre)) as [-> | Hne].
        -- rewrite Hy; apply Qle_refl.
        -- apply Qle_trans with b; [apply Hmax; lia | apply Qlt_le_weak; exact Hlt].
      * intros j Hj.
        apply Qle_lt_trans with b; [apply Hmax; lia | exact Hlt].
Qed.

Lemma np_argmax_correto (v : vetor) (i : nat) :
  np_argmax v = Ok i -> primeiro_maximo v i.
Proof.
  destruct v as [| x t]; [discriminate |].
  intros H; injection H as <-.
  destruct (@argmax_aux_correto t [x] 0 x) as (H1 & H2 & H3); simpl; try lia;
    try reflexivity.
  - intros j Hj. replace j with 0%nat by lia. apply Qle_refl.
  - simpl in H1, H2, H3.
    split; [exact H1 |]. split; [exact H2 |].
    intros k Hk Hmax.
    destruct (Nat.le_gt_cases (argmax_aux t 1 0 x) k) as [Hle | Hgt]; [exact Hle |].
    exfalso. apply (Qlt_irrefl (nth k (x :: t) 0)).
    apply Qlt_le_trans with (nth (argmax_aux t 1 0 x) (x :: t) 0).
    + apply H3; exact Hgt.
    + apply Hmax; exact H1.
Qed.

Lemma np_argmax_total (v : vetor) :
  v <> [] -> exists i, np_argmax v = Ok i.
Proof. destruct v; [congruence | intros _; eexists; reflexivity]. Qed.

Lemma primeiro_maximo_unico (v : vetor) (i k : nat) :
  primeiro_maximo v i -> primeiro_maximo v k -> i = k.
Proof.
  intros (Hi & Hmi & Hli) (Hk & Hmk & Hlk).
  apply Nat.le_antisymm; [apply Hli | apply Hlk]; assumption.
Qed.

(* ------------------------------------------------------------------ *)
(** ** Matrices *)

Lemma linha_length (W : ndarray2) (s : nat) :
  bem_formada W -> (s < n_linhas W)%nat ->
  length (nth s (linhas W) []) = n_colunas W.
Proof.
  intros [Hl Hr] Hs.
  rewrite Forall_forall in Hr. apply Hr, nth_In. lia.
Qed.

Lemma sorteio_bem_formada (S A : nat) (w : Mundo) : bem_formada (sorteio S A w).
Proof.
  split; unfold sorteio, n_linhas, n_colunas; simpl.
  - rewrite length_map, length_seq; reflexivity.
  - apply Forall_forall. intros r Hr. apply in_map_iff in Hr as [s [<- _]].
    rewrite length_map, length_seq; reflexivity.
Qed.

Lemma entrada_sorteio (S A : nat) (w : Mundo) (s a : nat) :
  (s < S)%nat -> (a < A)%nat ->
  entrada (sorteio S A w) s a = np_fita w (np_pos w + s * A + a)%nat.
Proof.
  intros Hs Ha. unfold entrada, sorteio; simpl.
  rewrite (nth_map_seq _ _ Hs), (nth_map_seq _ _ Ha). reflexivity.
Qed.

Lemma mat_map_bem_formada (f : Q -> Q) (W : ndarray2) :
  bem_formada W -> bem_formada (mat_map f W).
Proof.
  intros [Hl Hr]; split; unfold mat_map, n_linhas, n_colunas in *; simpl.
  - rewrite length_map; exact Hl.
  - apply Forall_forall. intros r Hin. apply in_map_iff in Hin as [r0 [<- Hin]].
    rewrite length_map. rewrite Forall_forall in Hr. apply Hr, Hin.
Qed.

Lemma entrada_mat_map (f : Q -> Q) (W : ndarray2) (s a : nat) :
  bem_formada W -> (s < n_linhas W)%nat -> (a < n_colunas W)%nat ->
  entrada (mat_map f W) s a = f (entrada W s a).
Proof.
  intros HW Hs Ha. unfold entrada, mat_map; simpl.
  rewrite (nth_map_dentro (map f) (linhas W) [] [])
    by (destruct HW as [Hl _]; change (s < length (linhas W))%nat;
        rewrite Hl; exact Hs).
  apply nth_map_dentro. rewrite linha_length; assumption.
Qed.

Lemma mat_soma_bem_formada (W M : ndarray2) :
  bem_formada W -> bem_formada M -> shape M = shape W ->
  bem_formada (mat_soma W M).
Proof.
  intros HW HM Hs.
  assert (HlW := proj1 HW). assert (HlM := proj1 HM).
  unfold n_linhas in *. rewrite Hs in HlM.
  split; unfold mat_soma, n_linhas, n_colunas; simpl.
  - rewrite zip_with_length; lia.
  - apply Forall_forall. intros r Hin.
    apply In_nth with (d := []) in Hin as [s [Hlt <-]].
    rewrite zip_with_length in Hlt.
    rewrite (@nth_zip_with _ _ _ vec_soma _ _ s [] [] []) by lia.
    rewrite vec_soma_length.
    + apply linha_length; [exact HW | unfold n_linhas; lia].
    + rewrite !linha_length; unfold n_linhas, n_colunas; try assumption;
        try lia; rewrite Hs; [reflexivity | lia].
Qed.

Lemma entrada_mat_soma (W M : ndarray2) (s a : nat) :
  bem_formada W -> bem_formada M -> shape M = shape W ->
  (s < n_linhas W)%nat -> (a < n_colunas W)%nat ->
  entrada (mat_soma W M) s a = entrada W s a + entrada M s a.
Proof.
  intros HW HM Hsh Hs Ha.
  assert (HlW := proj1 HW). assert (HlM := proj1 HM).
  assert (HsM : (s < n_linhas M)%nat) by (unfold n_linhas in *; rewrite Hsh; exact Hs).
  unfold entrada, mat_soma; simpl.
  rewrite (@nth_zip_with _ _ _ vec_soma _ _ s [] [] []) by lia.
  apply nth_vec_soma.
  - rewrite linha_length; assumption.
  - rewrite linha_length; try assumption.
    unfold n_colunas in *; rewrite Hsh; exact Ha.
Qed.

(* ------------------------------------------------------------------ *)
(** ** MotorEvolutivo *)

Lemma pensar_eq (v : vetor) (m : MotorEvolutivo.t) (w : Mundo) :
  MotorEvolutivo.pensar v (m, w) = (np_dot v (MotorEvolutivo.pesos m), (m, w)).
Proof. reflexivity. Qed.

Lemma evoluir_eq (taxa : Q) (m : MotorEvolutivo.t) (w : Mundo) :
  let W := MotorEvolutivo.pesos m in
  MotorEvolutivo.evoluir taxa (m, w)
  = (Ok tt,
     (MotorEvolutivo.mk
        (mat_soma W (mat_map (fun u => (u - (1 # 2)) * taxa)
                             (sorteio (n_linhas W) (n_colunas W) w))),
      avanca_np (n_linhas W * n_colunas W) w)).
Proof. reflexivity. Qed.

Lemma avanca_np_zero (w : Mundo) : avanca_np 0 w = w.
Proof. destruct w; unfold avanca_np; simpl. rewrite Nat.add_0_r. reflexivity. Qed.

(** With no column there is nothing to mutate and nothing to draw. *)
Lemma evoluir_sem_colunas (taxa : Q) (m : MotorEvolutivo.t) (w : Mundo) :
  bem_formada (MotorEvolutivo.pesos m) ->
  n_colunas (MotorEvolutivo.pesos m) = 0%nat ->
  MotorEvolutivo.evoluir taxa (m, w) = (Ok tt, (m, w)).
Proof.
  intros [Hl Hr] H0. rewrite evoluir_eq; cbv zeta.
  rewrite H0, Nat.mul_0_r, avanca_np_zero.
  destruct m as [[sh rows]]; simpl in *.
  unfold mat_soma; simpl. rewrite H0 in Hr.
  rewrite zip_with_linhas_vazias; [reflexivity | exact Hr |].
  rewrite !length_map, length_seq. symmetry; exact Hl.
Qed.

(* ------------------------------------------------------------------ *)
(** ** Dictionaries and the comprehension *)

Lemma dict_get_set (k : string) (v : Q) (d : dict) :
  dict_get k (dict_set k v d) = Some v.
Proof.
  induction d as [| [k' v'] t IH]; simpl.
  - rewrite String.eqb_refl; reflexivity.
  - destruct (String.eqb k k') eqn:E; simpl; rewrite E; [reflexivity | exact IH].
Qed.

Lemma dict_set_presente (k : string) (v : Q) (d : dict) :
  In k (dict_keys d) ->
  length (dict_set k v d) = length d /\ dict_keys (dict_set k v d) = dict_keys d.
Proof.
  induction d as [| [k' v'] t IH]; simpl; [tauto |].
  intros Hin. destruct (String.eqb k k') eqn:E; simpl; [split; reflexivity |].
  apply String.eqb_neq in E.
  destruct Hin as [-> | Hin]; [congruence |].
  destruct (IH Hin) as [-> ->]. split; reflexivity.
Qed.

Lemma dict_set_ausente (k : string) (v : Q) (d : dict) :
  ~ In k (dict_keys d) ->
  length (dict_set k v d) = S (length d) /\
  dict_keys (dict_set k v d) = dict_keys d ++ [k].
Proof.
  induction d as [| [k' v'] t IH]; simpl; [split; reflexivity |].
  intros Hin. destruct (String.eqb k k') eqn:E; simpl.
  - apply String.eqb_eq in E. subst. tauto.
  - destruct IH as [-> ->]; [tauto |]. split; reflexivity.
Qed.

Lemma dict_set_length_le (k : string) (v : Q) (d : dict) :
  (length (dict_set k v d) <= S (length d))%nat.
Proof.
  destruct (in_dec string_dec k (dict_keys d)) as [Hin | Hin].
  - destruct (dict_set_presente k v d Hin) as [-> _]; lia.
  - destruct (dict_set_ausente k v d Hin) as [-> _]; lia.
Qed.

Lemma guardar_todos_cons (n : string) (ns : list string) (v : Q) (vs : list Q)
  (acc : dict) :
  guardar_todos (n :: ns) (v :: vs) acc = guardar_todos ns vs (dict_set n v acc).
Proof. reflexivity. Qed.

Lemma guardar_todos_length_le (ns : list string) :
  forall (vs : list Q) (acc : dict),
    (length (guardar_todos ns vs acc) <= length acc + length ns)%nat.
Proof.
  induction ns as [| n ns IH]; intros vs acc.
  - unfold guardar_todos; simpl; lia.
  - destruct vs as [| v vs]; [unfold guardar_todos; simpl; lia |].
    rewrite guardar_todos_cons.
    specialize (IH vs (dict_set n v acc)).
    pose proof (dict_set_length_le n v acc). simpl; lia.
Qed.

(** A name stored twice, or already present, costs one entry. *)
Lemma guardar_todos_length_lt (ns : list string) :
  forall (vs : list Q) (acc : dict),
    length vs = length ns ->
    (exists n, In n ns /\ In n (dict_keys acc)) \/ ~ NoDup ns ->
    (length (guardar_todos ns vs acc) < length acc + length ns)%nat.
Proof.
  induction ns as [| n ns IH]; intros vs acc Hlen H.
  - exfalso. destruct H as [[n [[] _]] | H]; apply H; constructor.
  - destruct vs as [| v vs]; [discriminate Hlen |].
    injection Hlen as Hlen. rewrite guardar_todos_cons.
    destruct (in_dec string_dec n (dict_keys acc)) as [Hin | Hin].
    + destruct (dict_set_presente n v acc Hin) as [Hl _].
      pose proof (guardar_todos_length_le ns vs (dict_set n v acc)).
      simpl; lia.
    + destruct (dict_set_ausente n v acc Hin) as [Hl Hk].
      assert (H' : (exists n', In n' ns /\ In n' (dict_keys (dict_set n v acc)))
                   \/ ~ NoDup ns).
      { rewrite Hk. destruct H as [[n0 [[<- | Hn0] Hacc]] | Hnd].
        - contradiction.
        - left. exists n0. split; [exact Hn0 | apply in_or_app; left; exact Hacc].
        - destruct (in_dec string_dec n ns) as [Hn | Hn].
          + left. exists n. split; [exact Hn | apply in_or_app; right; left; reflexivity].
          + right. intros Hns. apply Hnd. constructor; assumption. }
      specialize (IH vs (dict_set n v acc) Hlen H'). simpl; lia.
Qed.

Lemma nomes_repetidos_NoDup (sentidos : list Sentido.t) :
  nomes_repetidos sentidos -> ~ NoDup (map Sentido.nome sentidos).
Proof.
  intros (i & j & si & sj & Hij & Hi & Hj & Hn) Hnd.
  rewrite NoDup_nth_error in Hnd.
  assert (i = j); [| lia].
  apply Hnd.
  - rewrite length_map. apply nth_error_Some. congruence.
  - rewrite !nth_error_map, Hi, Hj; simpl. congruence.
Qed.

(** The comprehension reads every sensor once, in order, and stores the
    readings one after the other. *)
Lemma compreensao_ler_todos (sentidos : list Sentido.t) :
  forall (acc : dict) (w : Mundo) (rd : dict) (w' : Mundo),
    compreensao sentidos acc w = (Ok rd, w') ->
    exists vs,
      ler_todos sentidos w = (Ok vs, w') /\
      length vs = length sentidos /\
      rd = guardar_todos (map Sentido.nome sentidos) vs acc.
Proof.
  induction sentidos as [| s resto IH]; intros acc w rd w' H.
  - injection H as <- <-. exists []. repeat split.
  - cbn [compreensao] in H. apply bind_inv_ok in H as (v & w1 & Hs & H).
    apply IH in H as (vs & Hvs & Hlen & ->).
    exists (v :: vs). cbn [ler_todos].
    rewrite (bind_ok _ _ _ Hs), (bind_ok _ _ _ Hvs).
    repeat split. simpl; congruence.
Qed.

Lemma compreensao_total (sentidos : list Sentido.t) :
  Forall nao_falha sentidos ->
  forall (acc : dict) (w : Mundo),
    exists rd w', compreensao sentidos acc w = (Ok rd, w').
Proof.
  induction 1 as [| s resto Hs _ IH]; intros acc w.
  - exists acc, w; reflexivity.
  - destruct (Hs w) as (v & w1 & Hv).
    destruct (IH (dict_set (Sentido.nome s) v acc) w1) as (rd & w' & Hrd).
    exists rd, w'. cbn [compreensao]. rewrite (bind_ok _ _ _ Hv). exact Hrd.
Qed.

(** The comprehension raises only what a sensor raised. *)
Lemma compreensao_raise (sentidos : list Sentido.t) :
  forall (acc : dict) (w : Mundo) (e : excecao) (w' : Mundo),
    compreensao sentidos acc w = (Raise e, w') ->
    exists antes s depois vs w0,
      sentidos = antes ++ s :: depois /\
      ler_todos antes w = (Ok vs, w0) /\
      Sentido.ler s w0 = (Raise e, w').
Proof.
  induction sentidos as [| s resto IH]; intros acc w e w' H.
  - discriminate H.
  - cbn [compreensao] in H. unfold bind in H.
    destruct (Sentido.ler s w) as [[v | e1] w1] eqn:Hs.
    + apply IH in H as (antes & s' & depois & vs & w0 & -> & Hvs & Hs').
      exists (s :: antes), s', depois, (v :: vs), w0. repeat split; [| exact Hs'].
      cbn [ler_todos]. rewrite (bind_ok _ _ _ Hs), (bind_ok _ _ _ Hvs). reflexivity.
    + injection H as <- <-.
      exists [], s, resto, [], w. repeat split. exact Hs.
Qed.

(** Sensors fixed at given values give the same dictionary in every world. *)
Lemma compreensao_fixa (sentidos : list Sentido.t) (cs : list Q) :
  Forall2 fixo_em sentidos cs ->
  forall (acc : dict) (w : Mundo),
    fst (compreensao sentidos acc w)
    = Ok (guardar_todos (map Sentido.nome sentidos) cs acc).
Proof.
  induction 1 as [| s c resto cs Hs _ IH]; intros acc w.
  - reflexivity.
  - cbn [compreensao]. unfold bind.
    specialize (Hs w). destruct (Sentido.ler s w) as [r w1]. simpl in Hs; subst r.
    rewrite IH. reflexivity.
Qed.

(* ------------------------------------------------------------------ *)
(** ** The parts of a cycle *)

Lemma ponderar_eq (g : Gaia.t) (w : Mundo) :
  ponderar (g, w) =
  match Dominio.observar_realidade (Gaia.dominio g) w with
  | (Raise e, w1) => (Raise e, (g, w1))
  | (Ok rd, w1) =>
      match np_dot (dict_values rd) (MotorEvolutivo.pesos (Gaia.motor g)) with
      | Raise e => (Raise e, (g, w1))
      | Ok bruta =>
          match NucleoEtico.observar_realidade_etica (Gaia.nucleo_etico g) w1 with
          | (Raise e, w2) => (Raise e, (g, w2))
          | (Ok red, w2) =>
              let d := NucleoEtico.calcular_dissonancia (Gaia.nucleo_etico g) red in
              (Ok (bruta, d, temperar bruta d), (g, w2))
          end
      end
  end.
Proof.
  destruct g as [d m n].
  unfold ponderar, bind, le_estado, Gaia.no_mundo, Gaia.no_motor, dentro,
    MotorEvolutivo.pensar, de_resultado, ret; simpl.
  destruct (Dominio.observar_realidade d w) as [[rd | e] w1]; simpl; [| reflexivity].
  unfold bind, le_estado; simpl.
  destruct (np_dot (dict_values rd) (MotorEvolutivo.pesos m)) as [bruta | e]; simpl;
    [| destruct m; reflexivity].
  destruct (NucleoEtico.observar_realidade_etica n w1) as [[red | e] w2]; simpl;
    destruct m; reflexivity.
Qed.

Lemma adaptar_eq (g : Gaia.t) (w : Mundo) :
  let W := MotorEvolutivo.pesos (Gaia.motor g) in
  adaptar (g, w) = (Ok tt, (mutado g w, avanca_np (n_linhas W * n_colunas W) w)).
Proof. reflexivity. Qed.

Lemma selecionar_eq (decisao_final : vetor) (g : Gaia.t) (w : Mundo) :
  selecionar decisao_final (g, w) = (escolha g decisao_final, (g, w)).
Proof.
  unfold selecionar, escolha, bind, le_estado, de_resultado; simpl.
  destruct (np_argmax decisao_final); reflexivity.
Qed.

Lemma viver_um_ciclo_partes (s : Gaia.estado) :
  Gaia.viver_um_ciclo s
  = (p <- ponderar ;; _ <- adaptar ;; selecionar (snd p))%prog s.
Proof.
  destruct s as [[d m n] w].
  unfold Gaia.viver_um_ciclo, ponderar, adaptar, selecionar, bind, le_estado,
    Gaia.no_mundo, Gaia.no_motor, dentro, MotorEvolutivo.pensar, de_resultado, ret;
    simpl.
  destruct (Dominio.observar_realidade d w) as [[rd | e] w1]; simpl; [| reflexivity].
  unfold bind, le_estado; simpl.
  destruct (np_dot (dict_values rd) (MotorEvolutivo.pesos m)) as [bruta | e]; simpl;
    [| reflexivity].
  destruct (NucleoEtico.observar_realidade_etica n w1) as [[red | e] w2]; simpl;
    reflexivity.
Qed.

(** A cycle, step by step. *)
Lemma viver_um_ciclo_eq (g : Gaia.t) (w : Mundo) :
  Gaia.viver_um_ciclo (g, w) =
  match ponderar (g, w) with
  | (Raise e, s1) => (Raise e, s1)
  | (Ok p, (g1, w1)) =>
      let W := MotorEvolutivo.pesos (Gaia.motor g1) in
      (escolha (mutado g1 w1) (snd p),
       (mutado g1 w1, avanca_np (n_linhas W * n_colunas W) w1))
  end.
Proof.
  rewrite viver_um_ciclo_partes. unfold bind at 1.
  destruct (ponderar (g, w)) as [[p | e] [g1 w1]]; [| reflexivity].
  unfold bind. rewrite adaptar_eq; cbv zeta. rewrite selecionar_eq. reflexivity.
Qed.

Lemma decidir_eq (g : Gaia.t) (w : Mundo) :
  decidir (g, w) =
  match ponderar (g, w) with
  | (Raise e, s1) => (Raise e, s1)
  | (Ok p, (g1, w1)) => (escolha g1 (snd p), (g1, w1))
  end.
Proof.
  unfold decidir, bind.
  destruct (ponderar (g, w)) as [[p | e] [g1 w1]]; [| reflexivity].
  apply selecionar_eq.
Qed.

Lemma runCycle_spec_eq (g : Gaia.t) (w : Mundo) :
  runCycle_spec (g, w) =
  match ponderar (g, w) with
  | (Raise e, s1) => (Raise e, s1)
  | (Ok p, (g1, w1)) =>
      match escolha g1 (snd p) with
      | Raise e => (Raise e, (g1, w1))
      | Ok a =>
          let W := MotorEvolutivo.pesos (Gaia.motor g1) in
          (Ok a, (mutado g1 w1, avanca_np (n_linhas W * n_colunas W) w1))
      end
  end.
Proof.
  unfold runCycle_spec, bind.
  destruct (ponderar (g, w)) as [[p | e] [g1 w1]]; [| reflexivity].
  rewrite selecionar_eq.
  destruct (escolha g1 (snd p)); [| reflexivity].
  rewrite adaptar_eq. reflexivity.
Qed.

(** Observing, scoring and tempering leave the agent as it was. *)
Lemma ponderar_agente (g : Gaia.t) (w : Mundo) r g1 w1 :
  ponderar (g, w) = (r, (g1, w1)) -> g1 = g.
Proof.
  rewrite ponderar_eq.
  destruct (Dominio.observar_realidade (Gaia.dominio g) w) as [[rd | e] w'];
    [| congruence].
  destruct (np_dot _ _); [| congruence].
  destruct (NucleoEtico.observar_realidade_etica _ _) as [[red | e] w2]; cbv zeta;
    congruence.
Qed.

(* ------------------------------------------------------------------ *)
(** ** Shapes along a cycle *)

Lemma np_dot_ok (v : vetor) (W : ndarray2) :
  length v = n_linhas W -> exists r, np_dot v W = Ok r.
Proof.
  intros H. unfold np_dot. rewrite H, Nat.eqb_refl. eexists; reflexivity.
Qed.

Lemma np_dot_raise (v : vetor) (W : ndarray2) :
  length v <> n_linhas W -> np_dot v W = Raise (ValueError "shapes not aligned").
Proof.
  intros H. unfold np_dot. apply Nat.eqb_neq in H. rewrite H. reflexivity.
Qed.

Lemma np_dot_length (v : vetor) (W : ndarray2) (r : vetor) :
  bem_formada W -> np_dot v W = Ok r -> length r = n_colunas W.
Proof.
  intros [_ Hr] H. unfold np_dot in H.
  destruct (Nat.eqb (length v) (n_linhas W)); [| discriminate H].
  injection H as <-.
  apply acumula_linhas_length; [exact Hr | apply repeat_length].
Qed.

Lemma temperar_length (bruta : vetor) (d : Q) :
  length (temperar bruta d) = length bruta.
Proof. unfold temperar. apply length_map. Qed.

Lemma Gaia_init_eq (d : Dominio.t) (w : Mundo) :
  let S := length (Dominio.sentidos d) in
  let A := length (Dominio.acoes_possiveis d) in
  Gaia.init d w
  = (Ok (Gaia.mk d (MotorEvolutivo.mk (sorteio S A w))
                 (NucleoEtico.init Gaia.imperativos_padrao)),
     avanca_np (S * A) w).
Proof. reflexivity. Qed.

Lemma mutado_dimensionada (g : Gaia.t) (w : Mundo) :
  dimensionada g -> dimensionada (mutado g w).
Proof.
  intros (HW & HS & HA). unfold dimensionada, mutado; simpl.
  split; [| split; assumption].
  apply mat_soma_bem_formada; [exact HW | |].
  - apply mat_map_bem_formada, sorteio_bem_formada.
  - simpl. unfold n_linhas, n_colunas. destruct (shape _); reflexivity.
Qed.

Lemma ciclo_dimensionada (g : Gaia.t) (w : Mundo) r g' w' :
  dimensionada g -> Gaia.viver_um_ciclo (g, w) = (r, (g', w')) -> dimensionada g'.
Proof.
  intros Hg. rewrite viver_um_ciclo_eq.
  destruct (ponderar (g, w)) as [[p | e] [g1 w1]] eqn:Hp;
    apply ponderar_agente in Hp; subst g1; cbv zeta; intros H;
    injection H as _ <- _; [apply mutado_dimensionada |]; exact Hg.
Qed.

Lemma alcancavel_dimensionada (g : Gaia.t) : alcancavel g -> dimensionada g.
Proof.
  induction 1 as [nome sentidos acoes d w g w' Hd Hg | g w r g' w' _ IH Hc].
  - rewrite Gaia_init_eq in Hg; cbv zeta in Hg. injection Hg as <- _.
    injection Hd as <-. unfold dimensionada; simpl.
    split; [apply sorteio_bem_formada | split; reflexivity].
  - eapply ciclo_dimensionada; eassumption.
Qed.

(** The choice of line 96 succeeds on a vector with one entry per action,
    when there is an action. *)
Lemma escolha_ok (g : Gaia.t) (final : vetor) :
  length final = length (Dominio.acoes_possiveis (Gaia.dominio g)) ->
  final <> [] ->
  exists i a,
    np_argmax final = Ok i /\
    nth_error (Dominio.acoes_possiveis (Gaia.dominio g)) i = Some a /\
    escolha g final = Ok a.
Proof.
  intros Hlen Hne.
  destruct (np_argmax_total Hne) as [i Hi].
  destruct (np_argmax_correto _ Hi) as (Hlt & _).
  destruct (nth_error (Dominio.acoes_possiveis (Gaia.dominio g)) i) as [a |] eqn:Ha.
  - exists i, a. repeat split; try assumption.
    unfold escolha, list_index. rewrite Hi, Ha. reflexivity.
  - apply nth_error_None in Ha. lia.
Qed.

Lemma escolha_inv (g : Gaia.t) (final : vetor) (a : string) :
  escolha g final = Ok a ->
  exists i,
    np_argmax final = Ok i /\
    nth_error (Dominio.acoes_possiveis (Gaia.dominio g)) i = Some a.
Proof.
  unfold escolha, list_index. destruct (np_argmax final) as [i | e]; [| discriminate].
  destruct (nth_error _ i) as [a' |] eqn:Ha; [| discriminate].
  intros H; injection H as <-. exists i; split; [reflexivity | exact Ha].
Qed.

Lemma escolha_mutado (g : Gaia.t) (w : Mundo) (final : vetor) :
  escolha (mutado g w) final = escolha g final.
Proof. reflexivity. Qed.

(** With distinct names nothing is overwritten. *)
Lemma guardar_todos_length_eq (ns : list string) :
  forall (vs : list Q) (acc : dict),
    length vs = length ns ->
    NoDup ns ->
    (forall n, In n ns -> ~ In n (dict_keys acc)) ->
    length (guardar_todos ns vs acc) = (length acc + length ns)%nat.
Proof.
  induction ns as [| n ns IH]; intros vs acc Hlen Hnd Hacc.
  - unfold guardar_todos; simpl; lia.
  - destruct vs as [| v vs]; [discriminate Hlen |].
    injection Hlen as Hlen. rewrite guardar_todos_cons.
    inversion Hnd as [| ? ? Hn Hnd']; subst.
    destruct (dict_set_ausente n v acc) as [Hl Hk]; [apply Hacc; left; reflexivity |].
    rewrite IH; try assumption.
    + simpl; lia.
    + intros n' Hn' Hin. rewrite Hk in Hin.
      apply in_app_or in Hin as [Hin | [<- | []]].
      * apply (Hacc n'); [right; exact Hn' | exact Hin].
      * contradiction.
Qed.

Lemma observar_length_NoDup (d : Dominio.t) (w : Mundo) rd w' :
  NoDup (map Sentido.nome (Dominio.sentidos d)) ->
  Dominio.observar_realidade d w = (Ok rd, w') ->
  length (dict_values rd) = length (Dominio.sentidos d).
Proof.
  intros Hnd H. apply compreensao_ler_todos in H as (vs & _ & Hlen & ->).
  unfold dict_values. rewrite length_map, guardar_todos_length_eq.
  - simpl. apply length_map.
  - rewrite length_map; exact Hlen.
  - exact Hnd.
  - intros n _ [].
Qed.

(* ------------------------------------------------------------------ *)
(** ** Facts about the concrete agents *)

Lemma gaia_web_alcancavel : alcancavel (fst gaia_web).
Proof.
  apply (@alc_init "Análise de Estratégia de Negócios"
           (Dominio.sentidos dominio_web) (Dominio.acoes_possiveis dominio_web)
           dominio_web (mundo_constante (1 # 3) (1 # 4)) (fst gaia_web) (snd gaia_web));
    reflexivity.
Defined.

Lemma mundo_constante_valido : fitas_validas (mundo_constante (1 # 3) (1 # 4)).
Proof.
  split; intros n; simpl; split; try (intros H; discriminate H); reflexivity.
Defined.

Lemma sentido_fixo_fixo_em (nome : string) (c : Q) : fixo_em (sentido_fixo nome c) c.
Proof. intros w; reflexivity. Defined.

Lemma dominio_repetido_nomes : nomes_repetidos (Dominio.sentidos dominio_repetido).
Proof.
  exists 0%nat, 1%nat, (sentido_fixo "s" 1), (sentido_fixo "s" 2).
  repeat split. constructor.
Defined.

(* ------------------------------------------------------------------ *)
(** ** Construction of a domain without actions *)

(** In a domain without actions every cycle raises: the sensors or the
    product may fail, and otherwise the final preference is empty and the
    arg-max of line 96 raises. *)
Lemma ciclo_sem_acoes (g : Gaia.t) (w : Mundo) :
  dimensionada g ->
  Dominio.acoes_possiveis (Gaia.dominio g) = [] ->
  exists e s', Gaia.viver_um_ciclo (g, w) = (Raise e, s').
Proof.
  intros (HW & _ & HA) Hacoes. rewrite Hacoes in HA; simpl in HA.
  rewrite viver_um_ciclo_eq.
  destruct (ponderar (g, w)) as [[[[bruta d] final] | e] [g1 w1]] eqn:Hp;
    [| eexists; eexists; reflexivity].
  pose proof (ponderar_agente _ _ Hp) as ->.
  rewrite ponderar_eq in Hp.
  destruct (Dominio.observar_realidade _ w) as [[rd | e] w']; [| discriminate Hp].
  destruct (np_dot _ _) as [b |] eqn:Hdot; [| discriminate Hp].
  apply np_dot_length in Hdot; [| exact HW].
  destruct (NucleoEtico.observar_realidade_etica _ _) as [[red | e] w2];
    [| discriminate Hp].
  cbv zeta in Hp. injection Hp as <- <- <- <-.
  cbv zeta. rewrite escolha_mutado. cbn [snd].
  rewrite HA in Hdot. destruct b; [| discriminate Hdot].
  eexists; eexists; reflexivity.
Qed.

(** C1, on the code: [Dominio.__init__] accepts an empty action list.  For
    the domain named "vazio" with one sensor and no action the constructor
    returns the domain; it raises nothing. *)
Lemma Dominio_init_aceita_sem_acoes :
  Dominio.init "vazio" [sentido_fixo "s0" 1] [] = Ok dominio_sem_acoes /\
  ~ (exists e, Dominio.init "vazio" [sentido_fixo "s0" 1] [] = Raise e).
Proof.
  split; [reflexivity |]. intros [e H]. discriminate H.
Qed.

(** C1, amended: for every name and every sensor list, constructing a
    domain with an empty action list succeeds, and so does constructing the
    agent on it, in every world; the failure comes later: every cycle of
    that agent raises. *)
Theorem C1_sem_acoes_falha_adiada (nome : string) (sentidos : list Sentido.t) :
  exists d,
    Dominio.init nome sentidos [] = Ok d /\
    Dominio.acoes_possiveis d = [] /\
    forall w, exists g w',
      Gaia.init d w = (Ok g, w') /\
      forall w2, exists e s', Gaia.viver_um_ciclo (g, w2) = (Raise e, s').
Proof.
  eexists. split; [reflexivity |]. split; [reflexivity |].
  intros w. eexists; eexists. split; [apply Gaia_init_eq |].
  intros w2. apply ciclo_sem_acoes; [| reflexivity].
  apply alcancavel_dimensionada.
  eapply alc_init; [reflexivity | apply Gaia_init_eq].
Qed.

(* ------------------------------------------------------------------ *)
(** ** Atomicity of a cycle with respect to the weights *)

(** A cycle that raises leaves the weights as they were. *)
Lemma ciclo_raise_pesos (g : Gaia.t) (w : Mundo) e g' w' :
  dimensionada g ->
  Gaia.viver_um_ciclo (g, w) = (Raise e, (g', w')) ->
  g' = g.
Proof.
  intros (HW & HS & HA). rewrite viver_um_ciclo_eq.
  destruct (ponderar (g, w)) as [[[[bruta d] final] | e1] [g1 w1]] eqn:Hp.
  - pose proof (ponderar_agente _ _ Hp) as ->.
    cbv zeta. rewrite escolha_mutado. cbn [snd]. intros H.
    injection H as Hesc <- _.
    rewrite ponderar_eq in Hp.
    destruct (Dominio.observar_realidade _ w) as [[rd | e0] w0]; [| discriminate Hp].
    destruct (np_dot _ _) as [b |] eqn:Hdot; [| discriminate Hp].
    apply np_dot_length in Hdot; [| exact HW].
    destruct (NucleoEtico.observar_realidade_etica _ _) as [[red | e0] w2];
      [| discriminate Hp].
    cbv zeta in Hp. injection Hp as <- <- <- <-.
    destruct (list_eq_dec string_dec (Dominio.acoes_possiveis (Gaia.dominio g)) [])
      as [Hvazio | Hne].
    + (* no column: the mutation changed nothing *)
      rewrite Hvazio in HA; simpl in HA.
      pose proof (evoluir_sem_colunas MotorEvolutivo.taxa_mutacao_padrao
                    (Gaia.motor g) w2 HW HA) as Hev.
      rewrite evoluir_eq in Hev; cbv zeta in Hev. injection Hev as Hm _.
      destruct g as [dm m n]. unfold mutado; simpl in *. rewrite Hm. reflexivity.
    + (* an action: the choice cannot have raised *)
      exfalso.
      destruct (@escolha_ok g (temperar b (NucleoEtico.calcular_dissonancia
                                             (Gaia.nucleo_etico g) red)))
        as (i & a & _ & _ & Hok).
      * rewrite temperar_length, Hdot, HA. reflexivity.
      * intros Hnil. apply (f_equal (@length Q)) in Hnil.
        rewrite temperar_length, Hdot, HA in Hnil.
        destruct (Dominio.acoes_possiveis (Gaia.dominio g)); [congruence | discriminate].
      * congruence.
  - pose proof (ponderar_agente _ _ Hp) as ->. congruence.
Qed.

(** C2, on the code: a cycle in which no sensor read raises need not
    complete.  The agent built on the domain without actions is a state of
    an agent; in its cycle the sensor of the domain and the two imperatives
    are read and return, and then the cycle raises at the arg-max: no action
    is selected. *)
Lemma ciclo_sem_falha_de_leitura_nao_completa :
  alcancavel (fst gaia_sem_acoes) /\
  fst (Dominio.observar_realidade (Gaia.dominio (fst gaia_sem_acoes))
         (snd gaia_sem_acoes))
  = Ok [("s0", 1)] /\
  fst (NucleoEtico.observar_realidade_etica
         (Gaia.nucleo_etico (fst gaia_sem_acoes)) (snd gaia_sem_acoes))
  = Ok [("dano_sistemico", 0 * (1 # 10)); ("bem-estar_agentes", 0)] /\
  fst (Gaia.viver_um_ciclo gaia_sem_acoes)
  = Raise (ValueError "attempt to get an argmax of an empty sequence") /\
  ~ (exists a s', Gaia.viver_um_ciclo gaia_sem_acoes = (Ok a, s')).
Proof.
  split.
  - apply (@alc_init "vazio" (Dominio.sentidos dominio_sem_acoes) []
             dominio_sem_acoes (mundo_constante 0 0)
             (fst gaia_sem_acoes) (snd gaia_sem_acoes)); reflexivity.
  - repeat split. intros (a & s' & H). discriminate H.
Qed.

(** C2, amended: for every state of an agent and every world,
    (a) a sensor read that raises, in the domain or among the imperatives,
        ends the cycle with that exception and the agent untouched;
    (b) when no read raises, the sensor names are distinct and there is an
        action, the cycle returns an action and the weights are the mutated
        ones;
    (c) whenever the cycle raises, the agent, and so its weight matrix, is
        what it was before the call. *)
Theorem C2_ciclo_atomico (g : Gaia.t) (w : Mundo) :
  alcancavel g ->
  let W := MotorEvolutivo.pesos (Gaia.motor g) in
  (forall e w1,
      Dominio.observar_realidade (Gaia.dominio g) w = (Raise e, w1) ->
      Gaia.viver_um_ciclo (g, w) = (Raise e, (g, w1))) /\
  (forall rd w1 bruta e w2,
      Dominio.observar_realidade (Gaia.dominio g) w = (Ok rd, w1) ->
      np_dot (dict_values rd) W = Ok bruta ->
      NucleoEtico.observar_realidade_etica (Gaia.nucleo_etico g) w1 = (Raise e, w2) ->
      Gaia.viver_um_ciclo (g, w) = (Raise e, (g, w2))) /\
  (forall rd w1 red w2,
      Dominio.observar_realidade (Gaia.dominio g) w = (Ok rd, w1) ->
      NucleoEtico.observar_realidade_etica (Gaia.nucleo_etico g) w1 = (Ok red, w2) ->
      NoDup (map Sentido.nome (Dominio.sentidos (Gaia.dominio g))) ->
      Dominio.acoes_possiveis (Gaia.dominio g) <> [] ->
      exists a,
        In a (Dominio.acoes_possiveis (Gaia.dominio g)) /\
        Gaia.viver_um_ciclo (g, w)
        = (Ok a, (mutado g w2, avanca_np (n_linhas W * n_colunas W) w2))) /\
  (forall e g' w',
      Gaia.viver_um_ciclo (g, w) = (Raise e, (g', w')) ->
      g' = g /\ MotorEvolutivo.pesos (Gaia.motor g') = W).
Proof.
  intros Halc W. pose proof (alcancavel_dimensionada Halc) as Hdim.
  destruct Hdim as (HW & HS & HA). fold W in HW, HS, HA.
  split; [| split; [| split]].
  - intros e w1 Hobs. rewrite viver_um_ciclo_eq, ponderar_eq, Hobs. reflexivity.
  - intros rd w1 bruta e w2 Hobs Hdot Het.
    rewrite viver_um_ciclo_eq, ponderar_eq, Hobs. fold W. rewrite Hdot, Het.
    reflexivity.
  - intros rd w1 red w2 Hobs Het Hnd Hne.
    pose proof (observar_length_NoDup _ _ Hnd Hobs) as Hlen.
    destruct (@np_dot_ok (dict_values rd) W) as [bruta Hdot]; [congruence |].
    pose proof (np_dot_length _ HW Hdot) as Hb.
    set (d := NucleoEtico.calcular_dissonancia (Gaia.nucleo_etico g) red).
    destruct (@escolha_ok g (temperar bruta d)) as (i & a & _ & Hi & Hok).
    + rewrite temperar_length; congruence.
    + intros Hnil. apply (f_equal (@length Q)) in Hnil.
      rewrite temperar_length, Hb, HA in Hnil.
      destruct (Dominio.acoes_possiveis (Gaia.dominio g)); [congruence | discriminate].
    + exists a. split; [eapply nth_error_In; exact Hi |].
      rewrite viver_um_ciclo_eq, ponderar_eq, Hobs. fold W. rewrite Hdot, Het.
      cbv beta iota zeta. rewrite escolha_mutado. cbn [snd]. fold d. rewrite Hok.
      reflexivity.
  - intros e g' w' H.
    apply ciclo_raise_pesos in H; [subst; split; reflexivity |].
    split; [exact HW | split; [exact HS | exact HA]].
Qed.

Lemma C2_ciclo_atomico_witness :
  alcancavel (fst gaia_web) /\
  let g := fst gaia_web in
  let w := snd gaia_web in
  let W := MotorEvolutivo.pesos (Gaia.motor g) in
  (forall e w1,
      Dominio.observar_realidade (Gaia.dominio g) w = (Raise e, w1) ->
      Gaia.viver_um_ciclo (g, w) = (Raise e, (g, w1))) /\
  (forall rd w1 bruta e w2,
      Dominio.observar_realidade (Gaia.dominio g) w = (Ok rd, w1) ->
      np_dot (dict_values rd) W = Ok bruta ->
      NucleoEtico.observar_realidade_etica (Gaia.nucleo_etico g) w1 = (Raise e, w2) ->
      Gaia.viver_um_ciclo (g, w) = (Raise e, (g, w2))) /\
  (forall rd w1 red w2,
      Dominio.observar_realidade (Gaia.dominio g) w = (Ok rd, w1) ->
      NucleoEtico.observar_realidade_etica (Gaia.nucleo_etico g) w1 = (Ok red, w2) ->
      NoDup (map Sentido.nome (Dominio.sentidos (Gaia.dominio g))) ->
      Dominio.acoes_possiveis (Gaia.dominio g) <> [] ->
      exists a,
        In a (Dominio.acoes_possiveis (Gaia.dominio g)) /\
        Gaia.viver_um_ciclo (g, w)
        = (Ok a, (mutado g w2, avanca_np (n_linhas W * n_colunas W) w2))) /\
  (forall e g' w',
      Gaia.viver_um_ciclo (g, w) = (Raise e, (g', w')) ->
      g' = g /\ MotorEvolutivo.pesos (Gaia.motor g') = W).
Proof.
  split; [exact gaia_web_alcancavel |].
  exact (@C2_ciclo_atomico (fst gaia_web) (snd gaia_web) gaia_web_alcancavel).
Defined.


(* ------------------------------------------------------------------ *)
(** ** Tempering *)

Lemma nth_temperar (bruta : vetor) (d : Q) (a : nat) :
  (a < length bruta)%nat ->
  nth a (temperar bruta d) 0 = nth a bruta 0 - d * np_mean bruta.
Proof.
  intros Ha. unfold temperar; cbv zeta.
  apply (nth_map_dentro (fun x => x - d * np_mean bruta) bruta 0 0 Ha).
Qed.

(* ------------------------------------------------------------------ *)
(** ** Selection *)

(** C5: whenever a cycle returns an action, that action is one of the
    configured actions of the domain, and it is the one at the lowest index
    among the indices at which the final preference of that cycle is
    maximal (so also when two or more actions attain the maximum). *)
Theorem C5_selecao_primeiro_maximo (g : Gaia.t) (w : Mundo) (a : string)
  (s' : Gaia.estado) :
  Gaia.viver_um_ciclo (g, w) = (Ok a, s') ->
  In a (Dominio.acoes_possiveis (Gaia.dominio g)) /\
  exists bruta dissonancia final s1 i,
    ponderar (g, w) = (Ok (bruta, dissonancia, final), s1) /\
    nth_error (Dominio.acoes_possiveis (Gaia.dominio g)) i = Some a /\
    (i < length final)%nat /\
    (forall j, (j < length final)%nat -> nth j final 0 <= nth i final 0) /\
    (forall k, (k < length final)%nat ->
               (forall j, (j < length final)%nat -> nth j final 0 <= nth k final 0) ->
               (i <= k)%nat).
Proof.
  rewrite viver_um_ciclo_eq.
  destruct (ponderar (g, w)) as [[[[bruta d] final] | e] [g1 w1]] eqn:Hp;
    [| discriminate].
  pose proof (ponderar_agente _ _ Hp) as ->.
  cbv zeta. rewrite escolha_mutado. cbn [snd]. intros H.
  injection H as Hesc _.
  apply escolha_inv in Hesc as (i & Hi & Ha).
  split; [eapply nth_error_In; exact Ha |].
  exists bruta, d, final, (g, w1), i.
  split; [reflexivity |]. split; [exact Ha |].
  exact (np_argmax_correto _ Hi).
Qed.

Lemma C5_selecao_primeiro_maximo_witness :
  let g := gaia_cenario in
  let w := mundo_constante 0 0 in
  let a := "A0" in
  let s' := snd (Gaia.viver_um_ciclo (g, w)) in
  Gaia.viver_um_ciclo (g, w) = (Ok a, s') /\
  In a (Dominio.acoes_possiveis (Gaia.dominio g)) /\
  exists bruta dissonancia final s1 i,
    ponderar (g, w) = (Ok (bruta, dissonancia, final), s1) /\
    nth_error (Dominio.acoes_possiveis (Gaia.dominio g)) i = Some a /\
    (i < length final)%nat /\
    (forall j, (j < length final)%nat -> nth j final 0 <= nth i final 0) /\
    (forall k, (k < length final)%nat ->
               (forall j, (j < length final)%nat -> nth j final 0 <= nth k final 0) ->
               (i <= k)%nat).
Proof.
  intros g w a s'.
  assert (H : Gaia.viver_um_ciclo (g, w) = (Ok a, s')) by reflexivity.
  split; [exact H |].
  exact (@C5_selecao_primeiro_maximo g w a s' H).
Defined.


(* ------------------------------------------------------------------ *)
(** ** Scoring *)

Lemma np_dot_produto (v : vetor) (W : ndarray2) :
  bem_formada W -> length v = n_linhas W ->
  exists r,
    np_dot v W = Ok r /\
    length r = n_colunas W /\
    forall a, (a < n_colunas W)%nat -> nth a r 0 == produto_coluna v W a.
Proof.
  intros HW Hv. destruct (np_dot_ok _ _ Hv) as [r Hr].
  exists r. split; [exact Hr |]. split; [exact (np_dot_length _ HW Hr) |].
  intros a Ha. unfold np_dot in Hr. rewrite Hv, Nat.eqb_refl in Hr.
  injection Hr as <-. destruct HW as [Hl Hrows].
  rewrite (acumula_linhas_nth Hrows v (repeat 0 (n_colunas W)) (a := a));
    [| apply repeat_length | congruence | exact Ha].
  rewrite nth_repeat_zero. unfold produto_coluna, entrada. rewrite Hl. ring.
Qed.

(** C6: for every weight matrix [W] of shape (S, A) and every observation
    vector [v] of length S, [pensar] returns a vector of length A whose
    entry [a] is the sum over the rows [s] of [v[s] * W[s][a]], and leaves
    the engine, hence [W], and the world as they were.  In the scenario of
    two sensors fixed at 1 and 0, weights [[2,0,1],[0,1,3]] and zero
    dissonance (the generator of [random] returns 0), the raw preference is
    [2,0,1], the arg-max of the final preference is index 0, and the cycle
    returns the action of index 0. *)
Theorem C6_pensar_produto_matricial :
  (forall (m : MotorEvolutivo.t) (v : vetor) (w : Mundo),
      bem_formada (MotorEvolutivo.pesos m) ->
      length v = n_linhas (MotorEvolutivo.pesos m) ->
      exists r,
        MotorEvolutivo.pensar v (m, w) = (Ok r, (m, w)) /\
        length r = n_colunas (MotorEvolutivo.pesos m) /\
        forall a, (a < n_colunas (MotorEvolutivo.pesos m))%nat ->
                  nth a r 0 == produto_coluna v (MotorEvolutivo.pesos m) a) /\
  (forall n : Q,
      let w := mundo_constante 0 n in
      exists bruta dissonancia final s1,
        ponderar (gaia_cenario, w) = (Ok (bruta, dissonancia, final), s1) /\
        vec_eq bruta [2; 0; 1] /\
        dissonancia == 0 /\
        np_argmax final = Ok 0%nat /\
        fst (decidir (gaia_cenario, w)) = Ok "A0" /\
        fst (Gaia.viver_um_ciclo (gaia_cenario, w)) = Ok "A0" /\
        nth_error (Dominio.acoes_possiveis dominio_cenario) 0 = Some "A0").
Proof.
  split.
  - intros m v w HW Hv.
    destruct (np_dot_produto v HW Hv) as (r & Hr & Hlen & Hnth).
    exists r. rewrite pensar_eq, Hr. repeat split; assumption.
  - intros n w. eexists; eexists; eexists; eexists.
    split; [reflexivity |].
    split; [repeat constructor |].
    split; [reflexivity |]. repeat split.
Qed.

Lemma C6_pensar_produto_matricial_witness :
  let m := MotorEvolutivo.mk pesos_cenario in
  let v := [1; 0] in
  let w := mundo_constante 0 0 in
  bem_formada (MotorEvolutivo.pesos m) /\
  length v = n_linhas (MotorEvolutivo.pesos m) /\
  exists r,
    MotorEvolutivo.pensar v (m, w) = (Ok r, (m, w)) /\
    length r = n_colunas (MotorEvolutivo.pesos m) /\
    forall a, (a < n_colunas (MotorEvolutivo.pesos m))%nat ->
              nth a r 0 == produto_coluna v (MotorEvolutivo.pesos m) a.
Proof.
  intros m v w.
  assert (HW : bem_formada (MotorEvolutivo.pesos m))
    by (split; [reflexivity | repeat constructor]).
  split; [exact HW |]. split; [reflexivity |].
  exact (proj1 C6_pensar_produto_matricial m v w HW eq_refl).
Defined.


(* ------------------------------------------------------------------ *)
(** ** Monotonicity of the tempering in the dissonance *)

(** C7: for a fixed raw preference of positive mean and dissonances
    [d1 <= d2], the preference tempered with [d2] has the length of the one
    tempered with [d1] and is below it at every action. *)
Theorem C7_temperar_monotona (bruta : vetor) (d1 d2 : Q) :
  np_mean bruta > 0 ->
  d1 <= d2 ->
  length (temperar bruta d2) = length (temperar bruta d1) /\
  forall a, (a < length bruta)%nat ->
            nth a (temperar bruta d2) 0 <= nth a (temperar bruta d1) 0.
Proof.
  intros Hm Hd. split; [rewrite !temperar_length; reflexivity |].
  intros a Ha. rewrite !(nth_temperar _ _ Ha).
  assert (H : d1 * np_mean bruta <= d2 * np_mean bruta)
    by (apply Qmult_le_compat_r; [exact Hd | apply Qlt_le_weak; exact Hm]).
  generalize dependent (np_mean bruta). intros mu _ H.
  generalize (nth a bruta 0). intros x. lra.
Qed.

Lemma C7_temperar_monotona_witness :
  let bruta := [2; 0; 1] in
  let d1 := 0 in
  let d2 := 1 in
  np_mean bruta > 0 /\
  d1 <= d2 /\
  length (temperar bruta d2) = length (temperar bruta d1) /\
  forall a, (a < length bruta)%nat ->
            nth a (temperar bruta d2) 0 <= nth a (temperar bruta d1) 0.
Proof.
  intros bruta d1 d2.
  assert (Hm : np_mean bruta > 0) by reflexivity.
  assert (Hd : d1 <= d2) by (intros H; discriminate H).
  split; [exact Hm |]. split; [exact Hd |].
  exact (@C7_temperar_monotona bruta d1 d2 Hm Hd).
Defined.


(* ------------------------------------------------------------------ *)
(** ** Determinism of the decision path *)

(** With every sensor fixed, what [ponderar] returns does not depend on the
    world. *)
Lemma ponderar_fixo (g : Gaia.t) (cs ces : list Q) (w w' : Mundo) :
  Forall2 fixo_em (Dominio.sentidos (Gaia.dominio g)) cs ->
  Forall2 fixo_em (NucleoEtico.imperativos (Gaia.nucleo_etico g)) ces ->
  fst (ponderar (g, w)) = fst (ponderar (g, w')).
Proof.
  intros Hs He. rewrite !ponderar_eq.
  pose proof (compreensao_fixa Hs [] w) as H1.
  pose proof (compreensao_fixa Hs [] w') as H2.
  unfold Dominio.observar_realidade.
  destruct (compreensao _ [] w) as [r1 w1], (compreensao _ [] w') as [r2 w2].
  simpl in H1, H2; subst r1 r2.
  destruct (np_dot _ _) as [bruta | e]; [| reflexivity].
  pose proof (compreensao_fixa He [] w1) as H1.
  pose proof (compreensao_fixa He [] w2) as H2.
  unfold NucleoEtico.observar_realidade_etica.
  destruct (compreensao _ [] w1) as [r1 w3], (compreensao _ [] w2) as [r2 w4].
  simpl in H1, H2; subst r1 r2. reflexivity.
Qed.

Lemma decidir_agente (g : Gaia.t) (w : Mundo) :
  fst (snd (decidir (g, w))) = g.
Proof.
  rewrite decidir_eq.
  destruct (ponderar (g, w)) as [[p | e] [g1 w1]] eqn:Hp;
    apply ponderar_agente in Hp; subst; reflexivity.
Qed.

(** C8: for every agent (so every weight matrix) whose domain sensors and
    ethical imperatives are all replaced by fixed values, the decision path
    (observe, score, temper, select; no mutation) leaves the agent as it was
    and returns the same result in every world; in particular a second
    invocation, run in the state the first one left, returns what the first
    one returned. *)
Theorem C8_decisao_deterministica (g : Gaia.t) (cs ces : list Q) :
  Forall2 fixo_em (Dominio.sentidos (Gaia.dominio g)) cs ->
  Forall2 fixo_em (NucleoEtico.imperativos (Gaia.nucleo_etico g)) ces ->
  forall w : Mundo,
    fst (snd (decidir (g, w))) = g /\
    fst (decidir (snd (decidir (g, w)))) = fst (decidir (g, w)) /\
    forall w' : Mundo, fst (decidir (g, w')) = fst (decidir (g, w)).
Proof.
  intros Hs He w.
  assert (Hdet : forall w1 w2, fst (decidir (g, w1)) = fst (decidir (g, w2))).
  { intros w1 w2. rewrite !decidir_eq.
    pose proof (@ponderar_fixo g cs ces w1 w2 Hs He) as H.
    destruct (ponderar (g, w1)) as [r1 [g1 w1']] eqn:H1.
    destruct (ponderar (g, w2)) as [r2 [g2 w2']] eqn:H2.
    apply ponderar_agente in H1, H2. simpl in H. subst.
    destruct r2; reflexivity. }
  split; [apply decidir_agente |]. split; [| intros w'; apply Hdet].
  pose proof (decidir_agente g w) as Hg.
  destruct (decidir (g, w)) as [r [g1 w1]] eqn:Hd. simpl in Hg. subst g1.
  cbn [snd fst]. rewrite (Hdet w1 w), Hd. reflexivity.
Qed.

Lemma C8_decisao_deterministica_witness :
  let g := Gaia.mk dominio_cenario (MotorEvolutivo.mk pesos_cenario)
             (NucleoEtico.init [sentido_fixo "dano_sistemico" (1 # 20);
                                sentido_fixo "bem-estar_agentes" (1 # 2)]) in
  let cs := [1; 0] in
  let ces := [1 # 20; 1 # 2] in
  Forall2 fixo_em (Dominio.sentidos (Gaia.dominio g)) cs /\
  Forall2 fixo_em (NucleoEtico.imperativos (Gaia.nucleo_etico g)) ces /\
  forall w : Mundo,
    fst (snd (decidir (g, w))) = g /\
    fst (decidir (snd (decidir (g, w)))) = fst (decidir (g, w)) /\
    forall w' : Mundo, fst (decidir (g, w')) = fst (decidir (g, w)).
Proof.
  intros g cs ces.
  assert (Hs : Forall2 fixo_em (Dominio.sentidos (Gaia.dominio g)) cs)
    by (repeat constructor; apply sentido_fixo_fixo_em).
  assert (He : Forall2 fixo_em (NucleoEtico.imperativos (Gaia.nucleo_etico g)) ces)
    by (repeat constructor; apply sentido_fixo_fixo_em).
  split; [exact Hs |]. split; [exact He |].
  exact (@C8_decisao_deterministica g cs ces Hs He).
Defined.


(* ------------------------------------------------------------------ *)
(** ** Repeated sensor names *)

(** C9: for every domain in which two sensors carry the same name,
    [observar_realidade] returns a dictionary whenever no sensor raises, and
    every dictionary it returns has strictly fewer entries than the domain
    has sensors, although every sensor was read once, in order, and its
    reading stored under its name (a later reading under a name replaces the
    earlier one); so the observation vector of a cycle is strictly shorter
    than the number of rows of the weight matrix of an agent built on that
    domain, and the product of that cycle raises. *)
Theorem C9_nomes_repetidos_encolhem (d : Dominio.t) (w : Mundo) :
  nomes_repetidos (Dominio.sentidos d) ->
  (Forall nao_falha (Dominio.sentidos d) ->
   exists rd w', Dominio.observar_realidade d w = (Ok rd, w')) /\
  (forall rd w',
      Dominio.observar_realidade d w = (Ok rd, w') ->
      (length rd < length (Dominio.sentidos d))%nat /\
      (exists vs,
          ler_todos (Dominio.sentidos d) w = (Ok vs, w') /\
          length vs = length (Dominio.sentidos d) /\
          rd = guardar_todos (map Sentido.nome (Dominio.sentidos d)) vs []) /\
      forall g,
        Gaia.dominio g = d ->
        n_linhas (MotorEvolutivo.pesos (Gaia.motor g))
          = length (Dominio.sentidos d) ->
        (length (dict_values rd)
         < n_linhas (MotorEvolutivo.pesos (Gaia.motor g)))%nat /\
        Gaia.viver_um_ciclo (g, w)
        = (Raise (ValueError "shapes not aligned"), (g, w'))).
Proof.
  intros Hrep. split; [intros Hnf; apply compreensao_total; exact Hnf |].
  intros rd w' Hobs.
  pose proof Hobs as Hobs'.
  apply compreensao_ler_todos in Hobs' as (vs & Hvs & Hlen & Hrd).
  assert (Hlt : (length rd < length (Dominio.sentidos d))%nat).
  { rewrite Hrd.
    pose proof (@guardar_todos_length_lt (map Sentido.nome (Dominio.sentidos d)) vs [])
      as H.
    rewrite length_map in H. simpl in H. apply H; [exact Hlen |].
    right. apply nomes_repetidos_NoDup, Hrep. }
  split; [exact Hlt |]. split; [exists vs; repeat split; assumption |].
  intros g Hg HS.
  assert (Hv : (length (dict_values rd)
                < n_linhas (MotorEvolutivo.pesos (Gaia.motor g)))%nat)
    by (unfold dict_values; rewrite length_map, HS; exact Hlt).
  split; [exact Hv |].
  rewrite viver_um_ciclo_eq, ponderar_eq, Hg, Hobs, np_dot_raise by lia.
  reflexivity.
Qed.

Lemma C9_nomes_repetidos_encolhem_witness :
  let d := dominio_repetido in
  let w := mundo_constante 0 0 in
  nomes_repetidos (Dominio.sentidos d) /\
  (Forall nao_falha (Dominio.sentidos d) ->
   exists rd w', Dominio.observar_realidade d w = (Ok rd, w')) /\
  (forall rd w',
      Dominio.observar_realidade d w = (Ok rd, w') ->
      (length rd < length (Dominio.sentidos d))%nat /\
      (exists vs,
          ler_todos (Dominio.sentidos d) w = (Ok vs, w') /\
          length vs = length (Dominio.sentidos d) /\
          rd = guardar_todos (map Sentido.nome (Dominio.sentidos d)) vs []) /\
      forall g,
        Gaia.dominio g = d ->
        n_linhas (MotorEvolutivo.pesos (Gaia.motor g))
          = length (Dominio.sentidos d) ->
        (length (dict_values rd)
         < n_linhas (MotorEvolutivo.pesos (Gaia.motor g)))%nat /\
        Gaia.viver_um_ciclo (g, w)
        = (Raise (ValueError "shapes not aligned"), (g, w'))).
Proof.
  intros d w. split; [exact dominio_repetido_nomes |].
  exact (@C9_nomes_repetidos_encolhem d w dominio_repetido_nomes).
Defined.


(* ------------------------------------------------------------------ *)
(** ** The order of mutation and selection *)

(** C10: for every state of an agent and every world, the cycle of the code
    (mutation before the arg-max expression) and the cycle in the order of
    the specification (selection, then mutation) give the same result, the
    same agent, hence the same weight matrix, and the same world; and what
    the cycle returns is what the decision path alone, which never mutates,
    returns on the weights of before the call. *)
Theorem C10_ordem_equivalente (g : Gaia.t) (w : Mundo) :
  alcancavel g ->
  Gaia.viver_um_ciclo (g, w) = runCycle_spec (g, w) /\
  fst (Gaia.viver_um_ciclo (g, w)) = fst (decidir (g, w)) /\
  MotorEvolutivo.pesos (Gaia.motor (fst (snd (Gaia.viver_um_ciclo (g, w)))))
  = MotorEvolutivo.pesos (Gaia.motor (fst (snd (runCycle_spec (g, w))))).
Proof.
  intros Halc. pose proof (alcancavel_dimensionada Halc) as Hdim.
  assert (Heq : Gaia.viver_um_ciclo (g, w) = runCycle_spec (g, w)).
  { destruct (Gaia.viver_um_ciclo (g, w)) as [[a | e] [g' w']] eqn:Hc.
    - rewrite viver_um_ciclo_eq in Hc. rewrite runCycle_spec_eq.
      destruct (ponderar (g, w)) as [[p | e] [g1 w1]]; [| discriminate Hc].
      cbv zeta in Hc. rewrite escolha_mutado in Hc.
      injection Hc as Hesc <- <-. rewrite Hesc. reflexivity.
    - pose proof (ciclo_raise_pesos _ Hdim Hc) as ->.
      rewrite viver_um_ciclo_eq in Hc. rewrite runCycle_spec_eq.
      destruct (ponderar (g, w)) as [[p | e1] [g1 w1]] eqn:Hp.
      + pose proof (ponderar_agente _ _ Hp) as ->.
        cbv zeta in Hc. rewrite escolha_mutado in Hc.
        injection Hc as Hesc Hg Hw. rewrite Hesc.
        (* the choice raised: there is no action, and no draw was made *)
        destruct Hdim as (HW & _ & HA).
        destruct (list_eq_dec string_dec
                    (Dominio.acoes_possiveis (Gaia.dominio g)) []) as [Hv | Hne].
        * rewrite Hv in HA; simpl in HA.
          rewrite HA, Nat.mul_0_r, avanca_np_zero in Hw. subst w'. reflexivity.
        * exfalso.
          rewrite ponderar_eq in Hp.
          destruct (Dominio.observar_realidade _ w) as [[rd | e0] w0];
            [| discriminate Hp].
          destruct (np_dot _ _) as [b |] eqn:Hdot; [| discriminate Hp].
          apply np_dot_length in Hdot; [| exact HW].
          destruct (NucleoEtico.observar_realidade_etica _ _) as [[red | e0] w2];
            [| discriminate Hp].
          cbv zeta in Hp. injection Hp as <- <-.
          destruct (@escolha_ok g (temperar b (NucleoEtico.calcular_dissonancia
                                                 (Gaia.nucleo_etico g) red)))
            as (i & a & _ & _ & Hok).
          -- rewrite temperar_length, Hdot, HA. reflexivity.
          -- intros Hnil. apply (f_equal (@length Q)) in Hnil.
             rewrite temperar_length, Hdot, HA in Hnil.
             destruct (Dominio.acoes_possiveis (Gaia.dominio g));
               [congruence | discriminate].
          -- cbn [snd] in Hesc. congruence.
      + symmetry; exact Hc. }
  split; [exact Heq |]. split; [| rewrite Heq; reflexivity].
  rewrite viver_um_ciclo_eq, decidir_eq.
  destruct (ponderar (g, w)) as [[p | e] [g1 w1]]; reflexivity.
Qed.

Lemma C10_ordem_equivalente_witness :
  let g := fst gaia_web in
  let w := snd gaia_web in
  alcancavel g /\
  Gaia.viver_um_ciclo (g, w) = runCycle_spec (g, w) /\
  fst (Gaia.viver_um_ciclo (g, w)) = fst (decidir (g, w)) /\
  MotorEvolutivo.pesos (Gaia.motor (fst (snd (Gaia.viver_um_ciclo (g, w)))))
  = MotorEvolutivo.pesos (Gaia.motor (fst (snd (runCycle_spec (g, w))))).
Proof.
  intros g w. split; [exact gaia_web_alcancavel |].
  exact (@C10_ordem_equivalente g w gaia_web_alcancavel).
Defined.


(* ------------------------------------------------------------------ *)
(** ** Further runs of the model *)

Example np_argmax_empate : np_argmax [1; 3; 3; 2] = Ok 1%nat.
Proof. reflexivity. Qed.

Example dict_repetido :
  fst (Dominio.observar_realidade dominio_repetido (mundo_constante 0 0))
  = Ok [("s", 2)].
Proof. reflexivity. Qed.

(** The second scenario of the specification: dissonance 1 on the raw
    preference [2,0,1] gives [1,-1,0], and index 0 again. *)
Example temperar_cenario :
  vec_eq (temperar [2; 0; 1] 1) [1; -1; 0] /\
  np_argmax (temperar [2; 0; 1] 1) = Ok 0%nat.
Proof. split; [repeat constructor | reflexivity]. Qed.

(** A sensor that raises ends the cycle with its exception and the agent as
    it was. *)
Example ciclo_avariado :
  let s := gaia_de dominio_avariado (mundo_constante 0 (1 # 4)) in
  Gaia.viver_um_ciclo s = (Raise (OutraExcecao "RuntimeError"), s).
Proof. reflexivity. Qed.

(** A repeated name ends the cycle at the product, before the mutation. *)
Example ciclo_repetido :
  Gaia.viver_um_ciclo gaia_repetido
  = (Raise (ValueError "shapes not aligned"), gaia_repetido).
Proof. reflexivity. Qed.

(** With no sensor the raw preference is a vector of zeros, one per action,
    and the first action is returned. *)
Example ciclo_sem_sentidos :
  fst (Gaia.viver_um_ciclo
         (gaia_de (Dominio.mk "sem sentidos" [] ["A0"; "A1"]) (mundo_constante 0 0)))
  = Ok "A0".
Proof. reflexivity. Qed.

(* ================================================================== *)
(** * Further properties of the code *)

(* ------------------------------------------------------------------ *)
(** ** Tempering and the selected action *)

Lemma Qle_bool_desloca (x y c : Q) : Qle_bool (x - c) (y - c) = Qle_bool x y.
Proof.
  destruct (Qle_bool x y) eqn:E.
  - apply Qle_bool_iff. apply Qle_bool_iff in E. lra.
  - destruct (Qle_bool (x - c) (y - c)) eqn:E'; [| reflexivity].
    apply Qle_bool_iff in E'.
    assert (H : x <= y) by lra.
    apply Qle_bool_iff in H. congruence.
Qed.

Lemma argmax_aux_desloca (c : Q) (l : vetor) :
  forall (i bi : nat) (b : Q),
    argmax_aux (map (fun x => x - c) l) i bi (b - c) = argmax_aux l i bi b.
Proof.
  induction l as [| y t IH]; intros i bi b; [reflexivity |].
  cbn [map argmax_aux]. rewrite Qle_bool_desloca.
  destruct (Qle_bool y b); apply IH.
Qed.

(** Line 91 subtracts one number from every entry, so it never moves the
    arg-max. *)
Lemma np_argmax_temperar (bruta : vetor) (dissonancia : Q) :
  np_argmax (temperar bruta dissonancia) = np_argmax bruta.
Proof.
  unfold temperar; cbv zeta. destruct bruta as [| x t]; [reflexivity |].
  cbn [map np_argmax]. f_equal. apply argmax_aux_desloca.
Qed.

(* ------------------------------------------------------------------ *)
(** ** The dictionary of an observation *)

Lemma dict_get_set_outro (k k' : string) (v : Q) (d : dict) :
  k <> k' -> dict_get k (dict_set k' v d) = dict_get k d.
Proof.
  intros Hne. induction d as [| [k0 v0] t IH]; simpl.
  - apply String.eqb_neq in Hne. rewrite Hne. reflexivity.
  - destruct (String.eqb k' k0) eqn:E; simpl.
    + apply String.eqb_eq in E. subst k0.
      apply String.eqb_neq in Hne. rewrite Hne. reflexivity.
    + destruct (String.eqb k k0); [reflexivity | exact IH].
Qed.

Lemma dict_set_ausente_fim (k : string) (v : Q) (d : dict) :
  ~ In k (dict_keys d) -> dict_set k v d = d ++ [(k, v)].
Proof.
  induction d as [| [k' v'] t IH]; simpl; [reflexivity |].
  intros Hin. destruct (String.eqb k k') eqn:E.
  - apply String.eqb_eq in E. subst. tauto.
  - rewrite IH by tauto. reflexivity.
Qed.

Lemma dict_keys_set (k : string) (v : Q) (d : dict) (n : string) :
  In n (dict_keys (dict_set k v d)) <-> n = k \/ In n (dict_keys d).
Proof.
  destruct (in_dec string_dec k (dict_keys d)) as [Hin | Hin].
  - destruct (dict_set_presente k v d Hin) as [_ ->].
    split; [tauto | intros [-> | H]; assumption].
  - destruct (dict_set_ausente k v d Hin) as [_ ->].
    rewrite in_app_iff; simpl. split; [intros [H | [<- | []]] | intros [-> | H]]; tauto.
Qed.

Lemma dict_set_NoDup (k : string) (v : Q) (d : dict) :
  NoDup (dict_keys d) -> NoDup (dict_keys (dict_set k v d)).
Proof.
  intros Hnd. destruct (in_dec string_dec k (dict_keys d)) as [Hin | Hin].
  - destruct (dict_set_presente k v d Hin) as [_ ->]. exact Hnd.
  - destruct (dict_set_ausente k v d Hin) as [_ ->].
    apply NoDup_app; [exact Hnd | repeat constructor; intros [] |].
    intros x Hx [<- | []]. contradiction.
Qed.

Lemma guardar_todos_chaves (ns : list string) :
  forall (vs : list Q) (acc : dict),
    length vs = length ns ->
    NoDup (dict_keys acc) ->
    NoDup (dict_keys (guardar_todos ns vs acc)) /\
    forall n, In n (dict_keys (guardar_todos ns vs acc))
              <-> In n (dict_keys acc) \/ In n ns.
Proof.
  induction ns as [| k ns IH]; intros vs acc Hlen Hnd.
  - destruct vs; [| discriminate Hlen]. split; [exact Hnd |].
    intros n; unfold guardar_todos; simpl; tauto.
  - destruct vs as [| v vs]; [discriminate Hlen |]. injection Hlen as Hlen.
    rewrite guardar_todos_cons.
    destruct (IH vs (dict_set k v acc) Hlen (@dict_set_NoDup k v acc Hnd)) as [H1 H2].
    split; [exact H1 |]. intros n. rewrite H2, dict_keys_set. simpl.
    split; [intros [[-> | H] | H] | intros [H | [<- | H]]]; tauto.
Qed.

Lemma guardar_todos_distintos (ns : list string) :
  forall (vs : list Q) (acc : dict),
    length vs = length ns ->
    NoDup ns ->
    (forall n, In n ns -> ~ In n (dict_keys acc)) ->
    guardar_todos ns vs acc = acc ++ combine ns vs.
Proof.
  induction ns as [| k ns IH]; intros vs acc Hlen Hnd Hacc.
  - unfold guardar_todos; simpl. rewrite app_nil_r. reflexivity.
  - destruct vs as [| v vs]; [discriminate Hlen |]. injection Hlen as Hlen.
    inversion Hnd as [| ? ? Hk Hnd']; subst.
    rewrite guardar_todos_cons, dict_set_ausente_fim by (apply Hacc; left; reflexivity).
    rewrite IH; try assumption.
    + rewrite <- app_assoc. reflexivity.
    + intros n Hn Hin. unfold dict_keys in Hin. rewrite map_app, in_app_iff in Hin.
      destruct Hin as [Hin | [<- | []]].
      * apply (Hacc n); [right; exact Hn | exact Hin].
      * contradiction.
Qed.

Lemma guardar_todos_get_fora (ns : list string) (k : string) :
  forall (vs : list Q) (acc : dict),
    ~ In k ns -> dict_get k (guardar_todos ns vs acc) = dict_get k acc.
Proof.
  induction ns as [| n ns IH]; intros vs acc Hk.
  - reflexivity.
  - destruct vs as [| v vs]; [reflexivity |].
    rewrite guardar_todos_cons, IH by (simpl in Hk; tauto).
    apply dict_get_set_outro. simpl in Hk. intros ->. tauto.
Qed.

Lemma guardar_todos_get_ultimo (ns : list string) (k : string) :
  forall (vs : list Q) (acc : dict) (i : nat),
    length vs = length ns ->
    nth_error ns i = Some k ->
    (forall j, (i < j)%nat -> nth_error ns j <> Some k) ->
    dict_get k (guardar_todos ns vs acc) = nth_error vs i.
Proof.
  induction ns as [| n ns IH]; intros vs acc i Hlen Hi Hult.
  - destruct i; discriminate Hi.
  - destruct vs as [| v vs]; [discriminate Hlen |]. injection Hlen as Hlen.
    rewrite guardar_todos_cons. destruct i as [| i]; simpl in Hi |- *.
    + injection Hi as ->.
      rewrite guardar_todos_get_fora.
      * apply dict_get_set.
      * intros Hin. apply In_nth_error in Hin as [j Hj].
        apply (Hult (S j)); [lia | exact Hj].
    + apply IH; try assumption.
      intros j Hj. apply (Hult (S j)). lia.
Qed.

Lemma combine_chaves_valores (ns : list string) :
  forall vs : list Q,
    length vs = length ns ->
    dict_keys (combine ns vs) = ns /\ dict_values (combine ns vs) = vs.
Proof.
  induction ns as [| n ns IH]; intros [| v vs] Hlen; try discriminate Hlen;
    [split; reflexivity |].
  injection Hlen as Hlen. destruct (IH vs Hlen) as [H1 H2].
  unfold dict_keys, dict_values in *. simpl. rewrite H1, H2. split; reflexivity.
Qed.

(** The dictionary that [observar_realidade] returns has each name once,
    has exactly the names of the sensors as keys, and so never more entries
    than there are sensors. *)
Theorem observar_realidade_chaves (d : Dominio.t) (w : Mundo) (rd : dict)
  (w' : Mundo) :
  Dominio.observar_realidade d w = (Ok rd, w') ->
  NoDup (dict_keys rd) /\
  (forall n, In n (dict_keys rd) <-> In n (map Sentido.nome (Dominio.sentidos d))) /\
  (length rd <= length (Dominio.sentidos d))%nat.
Proof.
  intros H. apply compreensao_ler_todos in H as (vs & _ & Hlen & ->).
  destruct (@guardar_todos_chaves (map Sentido.nome (Dominio.sentidos d)) vs [])
    as [H1 H2]; [rewrite length_map; exact Hlen | constructor |].
  split; [exact H1 |]. split.
  - intros n. rewrite H2. simpl. tauto.
  - pose proof (guardar_todos_length_le (map Sentido.nome (Dominio.sentidos d)) vs [])
      as Hle. rewrite length_map in Hle. exact Hle.
Qed.

Lemma observar_realidade_chaves_witness :
  let d := dominio_repetido in
  let w := mundo_constante 0 0 in
  let rd := [("s", 2)] in
  Dominio.observar_realidade d w = (Ok rd, w) /\
  NoDup (dict_keys rd) /\
  (forall n, In n (dict_keys rd) <-> In n (map Sentido.nome (Dominio.sentidos d))) /\
  (length rd <= length (Dominio.sentidos d))%nat.
Proof.
  intros d w rd.
  assert (H : Dominio.observar_realidade d w = (Ok rd, w)) by reflexivity.
  split; [exact H |]. exact (@observar_realidade_chaves d w rd w H).
Defined.

(** With distinct sensor names the observation is the list of the readings
    under their names, in the order of the sensors: entry [s] of the vector
    that the cycle builds is the reading of sensor [s]. *)
Theorem observar_realidade_nomes_distintos (d : Dominio.t) (w : Mundo)
  (rd : dict) (w' : Mundo) :
  NoDup (map Sentido.nome (Dominio.sentidos d)) ->
  Dominio.observar_realidade d w = (Ok rd, w') ->
  exists vs,
    ler_todos (Dominio.sentidos d) w = (Ok vs, w') /\
    rd = combine (map Sentido.nome (Dominio.sentidos d)) vs /\
    dict_keys rd = map Sentido.nome (Dominio.sentidos d) /\
    dict_values rd = vs.
Proof.
  intros Hnd H. apply compreensao_ler_todos in H as (vs & Hvs & Hlen & ->).
  exists vs. split; [exact Hvs |].
  assert (Hl : length vs = length (map Sentido.nome (Dominio.sentidos d)))
    by (rewrite length_map; exact Hlen).
  rewrite guardar_todos_distintos; try assumption; [| intros n _ []].
  cbn [app]. split; [reflexivity |].
  apply combine_chaves_valores. exact Hl.
Qed.

Lemma observar_realidade_nomes_distintos_witness :
  let d := dominio_cenario in
  let w := mundo_constante 0 0 in
  let rd := [("s0", 1); ("s1", 0)] in
  NoDup (map Sentido.nome (Dominio.sentidos d)) /\
  Dominio.observar_realidade d w = (Ok rd, w) /\
  exists vs,
    ler_todos (Dominio.sentidos d) w = (Ok vs, w) /\
    rd = combine (map Sentido.nome (Dominio.sentidos d)) vs /\
    dict_keys rd = map Sentido.nome (Dominio.sentidos d) /\
    dict_values rd = vs.
Proof.
  intros d w rd.
  assert (Hnd : NoDup (map Sentido.nome (Dominio.sentidos d))).
  { repeat constructor; simpl; intros H; repeat destruct H as [H | H];
      try discriminate H; exact H. }
  assert (H : Dominio.observar_realidade d w = (Ok rd, w)) by reflexivity.
  split; [exact Hnd |]. split; [exact H |].
  exact (@observar_realidade_nomes_distintos d w rd w Hnd H).
Defined.

(** Under a name the dictionary holds the reading of the last sensor that
    carries it: if sensor [i] is named [k] and no later sensor is, the value
    at [k] is the reading number [i]. *)
Theorem observar_realidade_ultima_leitura (d : Dominio.t) (w : Mundo)
  (rd : dict) (w' : Mundo) (vs : list Q) (i : nat) (s : Sentido.t) :
  Dominio.observar_realidade d w = (Ok rd, w') ->
  ler_todos (Dominio.sentidos d) w = (Ok vs, w') ->
  nth_error (Dominio.sentidos d) i = Some s ->
  (forall j s', (i < j)%nat -> nth_error (Dominio.sentidos d) j = Some s' ->
                Sentido.nome s' <> Sentido.nome s) ->
  dict_get (Sentido.nome s) rd = nth_error vs i /\
  exists v, nth_error vs i = Some v.
Proof.
  intros H Hvs Hi Hult.
  apply compreensao_ler_todos in H as (vs' & Hvs' & Hlen & ->).
  rewrite Hvs in Hvs'. injection Hvs' as <-.
  split.
  - apply guardar_todos_get_ultimo.
    + rewrite length_map; exact Hlen.
    + rewrite nth_error_map, Hi. reflexivity.
    + intros j Hj Hn. rewrite nth_error_map in Hn.
      destruct (nth_error (Dominio.sentidos d) j) as [s' |] eqn:Hs'; [| discriminate Hn].
      injection Hn as Hn. exact (Hult j s' Hj Hs' Hn).
  - destruct (nth_error vs i) as [v |] eqn:Hv; [exists v; reflexivity |].
    apply nth_error_None in Hv.
    assert (i < length (Dominio.sentidos d))%nat by (apply nth_error_Some; congruence).
    lia.
Qed.

Lemma observar_realidade_ultima_leitura_witness :
  let d := dominio_repetido in
  let w := mundo_constante 0 0 in
  let rd := [("s", 2)] in
  let vs := [1; 2] in
  let i := 1%nat in
  let s := sentido_fixo "s" 2 in
  Dominio.observar_realidade d w = (Ok rd, w) /\
  ler_todos (Dominio.sentidos d) w = (Ok vs, w) /\
  nth_error (Dominio.sentidos d) i = Some s /\
  (forall j s', (i < j)%nat -> nth_error (Dominio.sentidos d) j = Some s' ->
                Sentido.nome s' <> Sentido.nome s) /\
  dict_get (Sentido.nome s) rd = nth_error vs i /\
  exists v, nth_error vs i = Some v.
Proof.
  intros d w rd vs i s.
  assert (H1 : Dominio.observar_realidade d w = (Ok rd, w)) by reflexivity.
  assert (H2 : ler_todos (Dominio.sentidos d) w = (Ok vs, w)) by reflexivity.
  assert (H3 : nth_error (Dominio.sentidos d) i = Some s) by reflexivity.
  assert (H4 : forall j s', (i < j)%nat ->
                 nth_error (Dominio.sentidos d) j = Some s' ->
                 Sentido.nome s' <> Sentido.nome s).
  { intros j s' Hj Hs'. exfalso.
    assert (Hlt : (j < length (Dominio.sentidos d))%nat)
      by (apply nth_error_Some; congruence).
    simpl in Hlt. unfold i in Hj. lia. }
  split; [exact H1 |]. split; [exact H2 |]. split; [exact H3 |]. split; [exact H4 |].
  exact (@observar_realidade_ultima_leitura d w rd w vs i s H1 H2 H3 H4).
Defined.

(** The first sensor that raises ends the observation: the sensors before
    it have been read, the ones after it are not, the world is the one its
    read left, and a cycle ends there with that exception and the agent as
    it was. *)
Theorem observar_realidade_primeira_falha (g : Gaia.t) (w : Mundo)
  (antes : list Sentido.t) (s : Sentido.t) (depois : list Sentido.t)
  (vs : list Q) (w0 : Mundo) (e : excecao) (w' : Mundo) :
  Dominio.sentidos (Gaia.dominio g) = antes ++ s :: depois ->
  ler_todos antes w = (Ok vs, w0) ->
  Sentido.ler s w0 = (Raise e, w') ->
  Dominio.observar_realidade (Gaia.dominio g) w = (Raise e, w') /\
  Gaia.viver_um_ciclo (g, w) = (Raise e, (g, w')).
Proof.
  intros Hss Hantes Hs.
  assert (Hobs : Dominio.observar_realidade (Gaia.dominio g) w = (Raise e, w')).
  { unfold Dominio.observar_realidade. rewrite Hss. clear Hss.
    generalize (@nil (string * Q)). revert w vs Hantes.
    induction antes as [| a antes IH]; intros w vs Hantes acc.
    - injection Hantes as _ <-. cbn [app compreensao].
      apply bind_raise. exact Hs.
    - cbn [ler_todos] in Hantes. unfold bind in Hantes.
      destruct (Sentido.ler a w) as [[v | e1] w1] eqn:Ha; [| discriminate Hantes].
      destruct (ler_todos antes w1) as [[vs1 | e1] w2] eqn:Hr; [| discriminate Hantes].
      injection Hantes as _ <-.
      cbn [app compreensao]. rewrite (bind_ok _ _ _ Ha). eapply IH. exact Hr. }
  split; [exact Hobs |].
  rewrite viver_um_ciclo_eq, ponderar_eq, Hobs. reflexivity.
Qed.

Lemma observar_realidade_primeira_falha_witness :
  let g := fst (gaia_de dominio_avariado (mundo_constante 0 0)) in
  let w := snd (gaia_de dominio_avariado (mundo_constante 0 0)) in
  let antes := [sentido_fixo "s0" 1] in
  let s := sentido_avariado "s1" in
  let e := OutraExcecao "RuntimeError" in
  Dominio.sentidos (Gaia.dominio g) = antes ++ s :: [] /\
  ler_todos antes w = (Ok [1], w) /\
  Sentido.ler s w = (Raise e, w) /\
  Dominio.observar_realidade (Gaia.dominio g) w = (Raise e, w) /\
  Gaia.viver_um_ciclo (g, w) = (Raise e, (g, w)).
Proof.
  intros g w antes s e.
  split; [reflexivity |]. split; [reflexivity |]. split; [reflexivity |].
  exact (@observar_realidade_primeira_falha g w antes s [] [1] w e w
           eq_refl eq_refl eq_refl).
Defined.

(* ------------------------------------------------------------------ *)
(** ** The ethical core every agent is built with *)

(** The two imperatives of [Gaia.__init__] never raise; reading them takes
    two draws of [random] and none of NumPy's generator, and the dissonance
    is a tenth of the first draw plus the second, a number of [0, 1.1). *)
Theorem dissonancia_padrao_limitada (w : Mundo) :
  fitas_validas w ->
  let n := NucleoEtico.init Gaia.imperativos_padrao in
  exists red,
    NucleoEtico.observar_realidade_etica n w = (Ok red, avanca_py 2 w) /\
    dict_keys red = ["dano_sistemico"; "bem-estar_agentes"] /\
    NucleoEtico.calcular_dissonancia n red
    == py_fita w (py_pos w) * (1 # 10) + py_fita w (S (py_pos w)) /\
    0 <= NucleoEtico.calcular_dissonancia n red /\
    NucleoEtico.calcular_dissonancia n red < 11 # 10.
Proof.
  intros [Hpy _] n.
  exists [("dano_sistemico", py_fita w (py_pos w) * (1 # 10));
          ("bem-estar_agentes", py_fita w (S (py_pos w)))].
  split; [reflexivity |]. split; [reflexivity |].
  unfold NucleoEtico.calcular_dissonancia, dict_values, soma. cbn [map snd fold_left].
  destruct (Hpy (py_pos w)) as [Hx0 Hx1]. destruct (Hpy (S (py_pos w))) as [Hy0 Hy1].
  generalize dependent (py_fita w (py_pos w)).
  generalize dependent (py_fita w (S (py_pos w))).
  intros y Hy0 Hy1 x Hx0 Hx1.
  split; [ring |]. split; lra.
Qed.

Lemma dissonancia_padrao_limitada_witness :
  let w := mundo_constante (1 # 3) (1 # 4) in
  fitas_validas w /\
  let n := NucleoEtico.init Gaia.imperativos_padrao in
  exists red,
    NucleoEtico.observar_realidade_etica n w = (Ok red, avanca_py 2 w) /\
    dict_keys red = ["dano_sistemico"; "bem-estar_agentes"] /\
    NucleoEtico.calcular_dissonancia n red
    == py_fita w (py_pos w) * (1 # 10) + py_fita w (S (py_pos w)) /\
    0 <= NucleoEtico.calcular_dissonancia n red /\
    NucleoEtico.calcular_dissonancia n red < 11 # 10.
Proof.
  intros w. split; [exact mundo_constante_valido |].
  exact (@dissonancia_padrao_limitada w mundo_constante_valido).
Defined.

(* ------------------------------------------------------------------ *)
(** ** What a cycle keeps *)

Lemma nucleo_padrao_total (w : Mundo) :
  exists red,
    NucleoEtico.observar_realidade_etica
      (NucleoEtico.init Gaia.imperativos_padrao) w = (Ok red, avanca_py 2 w).
Proof. eexists. reflexivity. Qed.

Lemma ciclo_agente (g : Gaia.t) (w : Mundo) r g' w' :
  Gaia.viver_um_ciclo (g, w) = (r, (g', w')) ->
  g' = g \/ exists w1, g' = mutado g w1.
Proof.
  rewrite viver_um_ciclo_eq.
  destruct (ponderar (g, w)) as [[p | e] [g1 w1]] eqn:Hp;
    apply ponderar_agente in Hp; subst g1; cbv zeta; intros H;
    injection H as _ <- _; [right; exists w1; reflexivity | left; reflexivity].
Qed.

Lemma alcancavel_nucleo (g : Gaia.t) :
  alcancavel g -> Gaia.nucleo_etico g = NucleoEtico.init Gaia.imperativos_padrao.
Proof.
  induction 1 as [nome sentidos acoes d w g w' Hd Hg | g w r g' w' _ IH Hc].
  - rewrite Gaia_init_eq in Hg; cbv zeta in Hg. injection Hg as <- _. reflexivity.
  - apply ciclo_agente in Hc as [-> | [w1 ->]]; exact IH.
Qed.

(** A cycle, whatever its result, leaves the domain and the ethical core of
    the agent as they were and keeps the shape of the weight matrix: only
    the values of the weights can change. *)
Theorem ciclo_conserva_estrutura (g : Gaia.t) (w : Mundo)
  (r : resultado string) (g' : Gaia.t) (w' : Mundo) :
  Gaia.viver_um_ciclo (g, w) = (r, (g', w')) ->
  Gaia.dominio g' = Gaia.dominio g /\
  Gaia.nucleo_etico g' = Gaia.nucleo_etico g /\
  shape (MotorEvolutivo.pesos (Gaia.motor g'))
  = shape (MotorEvolutivo.pesos (Gaia.motor g)) /\
  (bem_formada (MotorEvolutivo.pesos (Gaia.motor g)) ->
   bem_formada (MotorEvolutivo.pesos (Gaia.motor g'))).
Proof.
  intros H. apply ciclo_agente in H as [-> | [w1 ->]].
  - split; [reflexivity |]. split; [reflexivity |]. split; [reflexivity |].
    intros HW; exact HW.
  - split; [reflexivity |]. split; [reflexivity |]. split; [reflexivity |].
    intros HW. unfold mutado; cbn [Gaia.motor MotorEvolutivo.pesos].
    apply mat_soma_bem_formada; [exact HW | |].
    + apply mat_map_bem_formada, sorteio_bem_formada.
    + simpl. unfold n_linhas, n_colunas. destruct (shape _); reflexivity.
Qed.

Lemma ciclo_conserva_estrutura_witness :
  let g := fst gaia_web in
  let w := snd gaia_web in
  let r := fst (Gaia.viver_um_ciclo gaia_web) in
  let g' := fst (snd (Gaia.viver_um_ciclo gaia_web)) in
  let w' := snd (snd (Gaia.viver_um_ciclo gaia_web)) in
  Gaia.viver_um_ciclo (g, w) = (r, (g', w')) /\
  Gaia.dominio g' = Gaia.dominio g /\
  Gaia.nucleo_etico g' = Gaia.nucleo_etico g /\
  shape (MotorEvolutivo.pesos (Gaia.motor g'))
  = shape (MotorEvolutivo.pesos (Gaia.motor g)) /\
  (bem_formada (MotorEvolutivo.pesos (Gaia.motor g)) ->
   bem_formada (MotorEvolutivo.pesos (Gaia.motor g'))).
Proof.
  intros g w r g' w'.
  assert (H : Gaia.viver_um_ciclo (g, w) = (r, (g', w'))) by reflexivity.
  split; [exact H |]. exact (@ciclo_conserva_estrutura g w r g' w' H).
Defined.

(** Every state of an agent, after its construction and after any number of
    cycles, has the two imperatives of [Gaia.__init__] as its ethical core
    and a weight matrix whose shape is (number of sensors, number of
    actions) and whose data agree with that shape. *)
Theorem agente_alcancavel_dimensionado (g : Gaia.t) :
  alcancavel g ->
  NucleoEtico.imperativos (Gaia.nucleo_etico g) = Gaia.imperativos_padrao /\
  shape (MotorEvolutivo.pesos (Gaia.motor g))
  = (length (Dominio.sentidos (Gaia.dominio g)),
     length (Dominio.acoes_possiveis (Gaia.dominio g))) /\
  length (linhas (MotorEvolutivo.pesos (Gaia.motor g)))
  = length (Dominio.sentidos (Gaia.dominio g)) /\
  Forall (fun linha => length linha
                       = length (Dominio.acoes_possiveis (Gaia.dominio g)))
         (linhas (MotorEvolutivo.pesos (Gaia.motor g))).
Proof.
  intros Halc. split; [rewrite (alcancavel_nucleo Halc); reflexivity |].
  destruct (alcancavel_dimensionada Halc) as ([Hl Hr] & HS & HA).
  unfold n_linhas, n_colunas in *.
  split; [destruct (shape _); simpl in *; congruence |].
  split; [congruence |]. rewrite <- HA. exact Hr.
Qed.

Lemma agente_alcancavel_dimensionado_witness :
  let g := fst gaia_web in
  alcancavel g /\
  NucleoEtico.imperativos (Gaia.nucleo_etico g) = Gaia.imperativos_padrao /\
  shape (MotorEvolutivo.pesos (Gaia.motor g))
  = (length (Dominio.sentidos (Gaia.dominio g)),
     length (Dominio.acoes_possiveis (Gaia.dominio g))) /\
  length (linhas (MotorEvolutivo.pesos (Gaia.motor g)))
  = length (Dominio.sentidos (Gaia.dominio g)) /\
  Forall (fun linha => length linha
                       = length (Dominio.acoes_possiveis (Gaia.dominio g)))
         (linhas (MotorEvolutivo.pesos (Gaia.motor g))).
Proof.
  intros g. split; [exact gaia_web_alcancavel |].
  exact (@agente_alcancavel_dimensionado g gaia_web_alcancavel).
Defined.

(** An agent whose domain has sensors that never raise, distinct sensor
    names and at least one action returns an action in every cycle, in every
    world, and is then again such an agent: the cycles go on for ever. *)
Theorem ciclo_sempre_devolve (g : Gaia.t) (w : Mundo) :
  alcancavel g ->
  Forall nao_falha (Dominio.sentidos (Gaia.dominio g)) ->
  NoDup (map Sentido.nome (Dominio.sentidos (Gaia.dominio g))) ->
  Dominio.acoes_possiveis (Gaia.dominio g) <> [] ->
  exists a g' w',
    Gaia.viver_um_ciclo (g, w) = (Ok a, (g', w')) /\
    In a (Dominio.acoes_possiveis (Gaia.dominio g)) /\
    alcancavel g' /\
    Gaia.dominio g' = Gaia.dominio g.
Proof.
  intros Halc Hnf Hnd Hne.
  destruct (alcancavel_dimensionada Halc) as (HW & HS & HA).
  destruct (compreensao_total Hnf [] w) as (rd & w1 & Hobs).
  change (Dominio.observar_realidade (Gaia.dominio g) w = (Ok rd, w1)) in Hobs.
  pose proof (observar_length_NoDup _ _ Hnd Hobs) as Hlen.
  destruct (@np_dot_ok (dict_values rd) (MotorEvolutivo.pesos (Gaia.motor g)))
    as [bruta Hdot]; [congruence |].
  pose proof (np_dot_length _ HW Hdot) as Hb.
  destruct (nucleo_padrao_total w1) as [red Het].
  rewrite <- (alcancavel_nucleo Halc) in Het.
  set (d := NucleoEtico.calcular_dissonancia (Gaia.nucleo_etico g) red).
  destruct (@escolha_ok g (temperar bruta d)) as (i & a & _ & Hi & Hok).
  - rewrite temperar_length; congruence.
  - intros Hnil. apply (f_equal (@length Q)) in Hnil.
    rewrite temperar_length, Hb, HA in Hnil.
    destruct (Dominio.acoes_possiveis (Gaia.dominio g)); [congruence | discriminate].
  - assert (Hc : Gaia.viver_um_ciclo (g, w)
                 = (Ok a, (mutado g (avanca_py 2 w1),
                           avanca_np (n_linhas (MotorEvolutivo.pesos (Gaia.motor g))
                                      * n_colunas (MotorEvolutivo.pesos (Gaia.motor g)))
                                     (avanca_py 2 w1)))).
    { rewrite viver_um_ciclo_eq, ponderar_eq, Hobs, Hdot, Het.
      cbv beta iota zeta. rewrite escolha_mutado. cbn [snd]. fold d. rewrite Hok.
      reflexivity. }
    eexists; eexists; eexists. split; [exact Hc |].
    split; [eapply nth_error_In; exact Hi |].
    split; [eapply alc_ciclo; [exact Halc | exact Hc] | reflexivity].
Qed.

Lemma dominio_web_nao_falha : Forall nao_falha (Dominio.sentidos dominio_web).
Proof.
  repeat constructor; intros w; eexists; eexists; reflexivity.
Defined.

Lemma dominio_web_nomes : NoDup (map Sentido.nome (Dominio.sentidos dominio_web)).
Proof.
  repeat constructor; simpl; intros H; repeat destruct H as [H | H];
    try discriminate H; exact H.
Defined.

Lemma ciclo_sempre_devolve_witness :
  let g := fst gaia_web in
  let w := snd gaia_web in
  alcancavel g /\
  Forall nao_falha (Dominio.sentidos (Gaia.dominio g)) /\
  NoDup (map Sentido.nome (Dominio.sentidos (Gaia.dominio g))) /\
  Dominio.acoes_possiveis (Gaia.dominio g) <> [] /\
  exists a g' w',
    Gaia.viver_um_ciclo (g, w) = (Ok a, (g', w')) /\
    In a (Dominio.acoes_possiveis (Gaia.dominio g)) /\
    alcancavel g' /\
    Gaia.dominio g' = Gaia.dominio g.
Proof.
  intros g w.
  assert (Hne : Dominio.acoes_possiveis (Gaia.dominio g) <> [])
    by (intros H; discriminate H).
  split; [exact gaia_web_alcancavel |]. split; [exact dominio_web_nao_falha |].
  split; [exact dominio_web_nomes |]. split; [exact Hne |].
  exact (@ciclo_sempre_devolve g w gaia_web_alcancavel dominio_web_nao_falha
           dominio_web_nomes Hne).
Defined.

(* ------------------------------------------------------------------ *)
(** ** A domain without sensors *)

Lemma argmax_aux_zeros (n i bi : nat) : argmax_aux (repeat 0 n) i bi 0 = bi.
Proof.
  revert i; induction n as [| n IH]; intros i; [reflexivity |].
  cbn [repeat argmax_aux]. change (Qle_bool 0 0) with true. cbv iota. apply IH.
Qed.

(** With no sensor at all the raw preference is a vector of zeros, one per
    action, and every cycle returns the first action of the domain, whatever
    the weights and the imperatives are. *)
Theorem sem_sentidos_primeira_acao (g : Gaia.t) (w : Mundo)
  (a0 : string) (resto : list string) :
  alcancavel g ->
  Dominio.sentidos (Gaia.dominio g) = [] ->
  Dominio.acoes_possiveis (Gaia.dominio g) = a0 :: resto ->
  exists d s1,
    ponderar (g, w)
    = (Ok (repeat 0 (S (length resto)), d, temperar (repeat 0 (S (length resto))) d),
       s1) /\
    fst (Gaia.viver_um_ciclo (g, w)) = Ok a0.
Proof.
  intros Halc Hss Hac.
  destruct (alcancavel_dimensionada Halc) as (HW & HS & HA).
  rewrite Hss in HS. rewrite Hac in HA. simpl in HS, HA.
  assert (Hobs : Dominio.observar_realidade (Gaia.dominio g) w = (Ok [], w))
    by (unfold Dominio.observar_realidade; rewrite Hss; reflexivity).
  assert (Hdot : np_dot (dict_values []) (MotorEvolutivo.pesos (Gaia.motor g))
                 = Ok (repeat 0 (S (length resto)))).
  { unfold np_dot. rewrite HS, HA. reflexivity. }
  destruct (nucleo_padrao_total w) as [red Het].
  rewrite <- (alcancavel_nucleo Halc) in Het.
  assert (Hp : ponderar (g, w)
               = (Ok (repeat 0 (S (length resto)),
                      NucleoEtico.calcular_dissonancia (Gaia.nucleo_etico g) red,
                      temperar (repeat 0 (S (length resto)))
                        (NucleoEtico.calcular_dissonancia (Gaia.nucleo_etico g) red)),
                  (g, avanca_py 2 w))).
  { rewrite ponderar_eq, Hobs, Hdot, Het. reflexivity. }
  eexists; eexists. split; [exact Hp |].
  rewrite viver_um_ciclo_eq, Hp. cbv beta iota zeta.
  rewrite escolha_mutado. cbn [fst snd].
  unfold escolha. rewrite np_argmax_temperar.
  cbn [repeat np_argmax]. rewrite argmax_aux_zeros.
  unfold list_index. rewrite Hac. reflexivity.
Qed.

Lemma sem_sentidos_primeira_acao_witness :
  let s := gaia_de (Dominio.mk "sem sentidos" [] ["A0"; "A1"]) (mundo_constante 0 0) in
  let g := fst s in
  let w := snd s in
  alcancavel g /\
  Dominio.sentidos (Gaia.dominio g) = [] /\
  Dominio.acoes_possiveis (Gaia.dominio g) = "A0" :: ["A1"] /\
  exists d s1,
    ponderar (g, w)
    = (Ok (repeat 0 (S (length ["A1"])), d, temperar (repeat 0 (S (length ["A1"]))) d),
       s1) /\
    fst (Gaia.viver_um_ciclo (g, w)) = Ok "A0".
Proof.
  intros s g w.
  assert (Halc : alcancavel g).
  { apply (@alc_init "sem sentidos" [] ["A0"; "A1"]
             (Dominio.mk "sem sentidos" [] ["A0"; "A1"]) (mundo_constante 0 0)
             g w); reflexivity. }
  split; [exact Halc |]. split; [reflexivity |]. split; [reflexivity |].
  exact (@sem_sentidos_primeira_acao g w "A0" ["A1"] Halc eq_refl eq_refl).
Defined.

(* ------------------------------------------------------------------ *)
(** ** The dialogue function *)

Lemma dict_get_chave (d : dict) (k : string) :
  In k (dict_keys d) -> exists v, dict_get k d = Some v.
Proof.
  induction d as [| [k' v'] t IH]; simpl; [intros [] |].
  intros Hin. destruct (String.eqb k k') eqn:E; [exists v'; reflexivity |].
  apply String.eqb_neq in E. destruct Hin as [-> | Hin]; [congruence | exact (IH Hin)].
Qed.

Lemma dict_get_Some_chave (d : dict) (k : string) (v : Q) :
  dict_get k d = Some v -> In k (dict_keys d).
Proof.
  induction d as [| [k' v'] t IH]; simpl; [discriminate |].
  destruct (String.eqb k k') eqn:E.
  - apply String.eqb_eq in E. left; congruence.
  - intros H. right. exact (IH H).
Qed.

Lemma max_por_valor_aux_correto (d : dict) (ks : list string) :
  forall (pre : list string) (bk : string) (bv : Q) (bi : nat),
    (forall k, In k ks -> In k (dict_keys d)) ->
    nth_error pre bi = Some bk ->
    dict_get bk d = Some bv ->
    (forall k' v', In k' pre -> dict_get k' d = Some v' -> v' <= bv) ->
    (forall j k' v', (j < bi)%nat -> nth_error pre j = Some k' ->
                     dict_get k' d = Some v' -> v' < bv) ->
    exists k v i,
      max_por_valor_aux ks d bk bv = Ok k /\
      nth_error (pre ++ ks) i = Some k /\
      dict_get k d = Some v /\
      (forall k' v', In k' (pre ++ ks) -> dict_get k' d = Some v' -> v' <= v) /\
      (forall j k' v', (j < i)%nat -> nth_error (pre ++ ks) j = Some k' ->
                       dict_get k' d = Some v' -> v' < v).
Proof.
  induction ks as [| k t IH]; intros pre bk bv bi Hks Hbi Hbv Hmax Hmin.
  - exists bk, bv, bi. rewrite app_nil_r. repeat split; assumption.
  - assert (Hbi' : (bi < length pre)%nat) by (apply nth_error_Some; congruence).
    destruct (@dict_get_chave d k) as [v0 Hv0]; [apply Hks; left; reflexivity |].
    cbn [max_por_valor_aux]. rewrite Hv0.
    change (k :: t) with ([k] ++ t). rewrite app_assoc.
    destruct (Qle_bool v0 bv) eqn:Hle.
    + apply Qle_bool_iff in Hle.
      apply (IH (pre ++ [k]) bk bv bi).
      * intros k' Hk'. apply Hks. right; exact Hk'.
      * rewrite nth_error_app1 by exact Hbi'. exact Hbi.
      * exact Hbv.
      * intros k' v' Hin Hget. apply in_app_or in Hin as [Hin | [<- | []]].
        -- exact (Hmax k' v' Hin Hget).
        -- rewrite Hv0 in Hget. injection Hget as <-. exact Hle.
      * intros j k' v' Hj Hnth Hget.
        rewrite nth_error_app1 in Hnth by lia. exact (Hmin j k' v' Hj Hnth Hget).
    + assert (Hlt : bv < v0).
      { apply Qnot_le_lt. intros Hc. apply Qle_bool_iff in Hc. congruence. }
      apply (IH (pre ++ [k]) k v0 (length pre)).
      * intros k' Hk'. apply Hks. right; exact Hk'.
      * rewrite nth_error_app2, Nat.sub_diag by lia. reflexivity.
      * exact Hv0.
      * intros k' v' Hin Hget. apply in_app_or in Hin as [Hin | [<- | []]].
        -- apply Qle_trans with bv; [exact (Hmax k' v' Hin Hget) |].
           apply Qlt_le_weak; exact Hlt.
        -- rewrite Hv0 in Hget. injection Hget as <-. apply Qle_refl.
      * intros j k' v' Hj Hnth Hget.
        rewrite nth_error_app1 in Hnth by exact Hj.
        apply Qle_lt_trans with bv; [| exact Hlt].
        apply (Hmax k' v'); [eapply nth_error_In; exact Hnth | exact Hget].
Qed.

Lemma max_por_valor_correto (d : dict) :
  d <> [] ->
  exists k v i,
    max_por_valor d = Ok k /\
    nth_error (dict_keys d) i = Some k /\
    dict_get k d = Some v /\
    (forall k' v', dict_get k' d = Some v' -> v' <= v) /\
    (forall j k' v', (j < i)%nat -> nth_error (dict_keys d) j = Some k' ->
                     dict_get k' d = Some v' -> v' < v).
Proof.
  destruct d as [| [k0 v0] t]; [congruence |]. intros _.
  assert (H0 : dict_get k0 ((k0, v0) :: t) = Some v0)
    by (simpl; rewrite String.eqb_refl; reflexivity).
  destruct (@max_por_valor_aux_correto ((k0, v0) :: t) (dict_keys t) [k0] k0 v0 0%nat)
    as (k & v & i & Hk & Hi & Hv & Hmax & Hmin).
  - intros k Hk. right; exact Hk.
  - reflexivity.
  - exact H0.
  - intros k' v' [<- | []] Hget. rewrite H0 in Hget. injection Hget as <-.
    apply Qle_refl.
  - intros j k' v' Hj. lia.
  - exists k, v, i. unfold max_por_valor. cbn [dict_keys map fst]. rewrite H0.
    split; [exact Hk |]. split; [exact Hi |]. split; [exact Hv |].
    split; [| exact Hmin].
    intros k' v' Hget. apply (Hmax k' v'); [| exact Hget].
    exact (dict_get_Some_chave _ _ Hget).
Qed.

(** Talking to Gaia never changes the agent: whatever the prompt, the
    history and the lower-casing, [conversar_com_gaia] leaves the agent, so
    its weights, as it was (it runs no cycle), and the world is either
    untouched or what reading the sensors of the domain left.  When the
    lower-cased prompt contains "preveja" or "previsão" the reply is the one
    fixed prediction, whatever else the prompt contains and whatever the
    state of the agent, and nothing is read. *)
Theorem conversar_nao_altera_agente (str_lower : string -> string)
  (prompt_usuario : string) (historico_chat : list (string * string))
  (g : Gaia.t) (w : Mundo) :
  let r := conversar_com_gaia str_lower prompt_usuario historico_chat (g, w) in
  fst (snd r) = g /\
  (snd (snd r) = w \/
   snd (snd r) = snd (Dominio.observar_realidade (Gaia.dominio g) w)) /\
  (str_contem "preveja" (str_lower prompt_usuario)
   || str_contem "previsão" (str_lower prompt_usuario) = true ->
   r = (Ok resposta_previsao, (g, w))).
Proof.
  cbv zeta. unfold conversar_com_gaia.
  destruct (str_contem "preveja" (str_lower prompt_usuario)
            || str_contem "previsão" (str_lower prompt_usuario)).
  - repeat split. left; reflexivity.
  - destruct (str_contem "por que" (str_lower prompt_usuario)
              || str_contem "analise" (str_lower prompt_usuario)).
    + unfold bind, le_estado, Gaia.no_mundo, dentro, de_resultado, ret.
      cbn [fst snd].
      destruct (Dominio.observar_realidade (Gaia.dominio g) w) as [[rd | e] w1];
        cbn [fst snd].
      * destruct (max_por_valor rd); cbn [fst snd];
          (split; [reflexivity |]; split; [right; reflexivity | discriminate]).
      * split; [reflexivity |]. split; [right; reflexivity | discriminate].
    + split; [reflexivity |]. split; [left; reflexivity | discriminate].
Qed.

Lemma conversar_nao_altera_agente_witness :
  let g := fst gaia_web in
  let w := snd gaia_web in
  let prompt := "Preveja e analise o mercado" in
  let r := conversar_com_gaia str_lower_ascii prompt [] (g, w) in
  str_contem "preveja" (str_lower_ascii prompt)
  || str_contem "previsão" (str_lower_ascii prompt) = true /\
  fst (snd r) = g /\
  (snd (snd r) = w \/
   snd (snd r) = snd (Dominio.observar_realidade (Gaia.dominio g) w)) /\
  r = (Ok resposta_previsao, (g, w)).
Proof.
  intros g w prompt r.
  destruct (@conversar_nao_altera_agente str_lower_ascii prompt [] g w)
    as (H1 & H2 & H3).
  split; [reflexivity |]. split; [exact H1 |]. split; [exact H2 |].
  exact (H3 eq_refl).
Defined.

(** A prompt that asks why (its lower-cased text contains "por que" or
    "analise", and neither "preveja" nor "previsão") makes Gaia read every
    sensor of the domain once; when the readings return and there is a
    sensor, the reply names a sensor whose reading is the largest, the first
    one in the order of the dictionary if several are, and the agent is
    untouched. *)
Theorem conversar_analise_maior_leitura (str_lower : string -> string)
  (prompt_usuario : string) (historico_chat : list (string * string))
  (g : Gaia.t) (w : Mundo) (rd : dict) (w1 : Mundo) :
  str_contem "preveja" (str_lower prompt_usuario)
  || str_contem "previsão" (str_lower prompt_usuario) = false ->
  str_contem "por que" (str_lower prompt_usuario)
  || str_contem "analise" (str_lower prompt_usuario) = true ->
  Dominio.observar_realidade (Gaia.dominio g) w = (Ok rd, w1) ->
  Dominio.sentidos (Gaia.dominio g) <> [] ->
  exists k v i,
    conversar_com_gaia str_lower prompt_usuario historico_chat (g, w)
    = (Ok (resposta_analise k), (g, w1)) /\
    In k (map Sentido.nome (Dominio.sentidos (Gaia.dominio g))) /\
    nth_error (dict_keys rd) i = Some k /\
    dict_get k rd = Some v /\
    (forall k' v', dict_get k' rd = Some v' -> v' <= v) /\
    (forall j k' v', (j < i)%nat -> nth_error (dict_keys rd) j = Some k' ->
                     dict_get k' rd = Some v' -> v' < v).
Proof.
  intros Hprev Han Hobs Hne.
  pose proof Hobs as Hobs'.
  apply compreensao_ler_todos in Hobs' as (vs & _ & Hlen & Hrd).
  destruct (@guardar_todos_chaves
              (map Sentido.nome (Dominio.sentidos (Gaia.dominio g))) vs [])
    as [_ Hkeys]; [rewrite length_map; exact Hlen | constructor |].
  rewrite <- Hrd in Hkeys.
  assert (Hrdne : rd <> []).
  { intros ->. destruct (Dominio.sentidos (Gaia.dominio g)) as [| s ss];
      [congruence |].
    apply (proj2 (Hkeys (Sentido.nome s))). right; left; reflexivity. }
  destruct (max_por_valor_correto Hrdne) as (k & v & i & Hk & Hi & Hv & Hmax & Hmin).
  exists k, v, i. split.
  - unfold conversar_com_gaia. rewrite Hprev, Han.
    unfold bind, le_estado, Gaia.no_mundo, dentro, de_resultado, ret.
    cbn [fst snd]. rewrite Hobs, Hk. destruct g; reflexivity.
  - split.
    + destruct (proj1 (Hkeys k)) as [[] | H]; [| exact H].
      eapply nth_error_In; exact Hi.
    + repeat split; assumption.
Qed.

Lemma conversar_analise_maior_leitura_witness :
  let g := fst gaia_web in
  let w := snd gaia_web in
  let rd := [("competicao_mercado", 1 # 3); ("satisfacao_cliente", 1 # 3)] in
  let w1 := avanca_py 2 w in
  let prompt := "Por que a satisfacao do cliente e tao importante?" in
  str_contem "preveja" (str_lower_ascii prompt)
  || str_contem "previsão" (str_lower_ascii prompt) = false /\
  str_contem "por que" (str_lower_ascii prompt)
  || str_contem "analise" (str_lower_ascii prompt) = true /\
  Dominio.observar_realidade (Gaia.dominio g) w = (Ok rd, w1) /\
  Dominio.sentidos (Gaia.dominio g) <> [] /\
  exists k v i,
    conversar_com_gaia str_lower_ascii prompt [] (g, w)
    = (Ok (resposta_analise k), (g, w1)) /\
    In k (map Sentido.nome (Dominio.sentidos (Gaia.dominio g))) /\
    nth_error (dict_keys rd) i = Some k /\
    dict_get k rd = Some v /\
    (forall k' v', dict_get k' rd = Some v' -> v' <= v) /\
    (forall j k' v', (j < i)%nat -> nth_error (dict_keys rd) j = Some k' ->
                     dict_get k' rd = Some v' -> v' < v).
Proof.
  intros g w rd w1 prompt.
  assert (Hne : Dominio.sentidos (Gaia.dominio g) <> [])
    by (intros H; discriminate H).
  split; [reflexivity |]. split; [reflexivity |]. split; [reflexivity |].
  split; [exact Hne |].
  exact (@conversar_analise_maior_leitura str_lower_ascii prompt [] g w rd w1
           eq_refl eq_refl eq_refl Hne).
Defined.

(** The same prompt on a domain without sensors, or with a sensor that
    raises, makes the dialogue function raise: [max] of the empty dictionary
    is a [ValueError], and the exception of a sensor goes through; the agent
    is untouched. *)
Theorem conversar_analise_erros (str_lower : string -> string)
  (prompt_usuario : string) (historico_chat : list (string * string))
  (g : Gaia.t) (w : Mundo) :
  str_contem "preveja" (str_lower prompt_usuario)
  || str_contem "previsão" (str_lower prompt_usuario) = false ->
  str_contem "por que" (str_lower prompt_usuario)
  || str_contem "analise" (str_lower prompt_usuario) = true ->
  (Dominio.sentidos (Gaia.dominio g) = [] ->
   conversar_com_gaia str_lower prompt_usuario historico_chat (g, w)
   = (Raise (ValueError "max() arg is an empty sequence"), (g, w))) /\
  (forall e w1,
      Dominio.observar_realidade (Gaia.dominio g) w = (Raise e, w1) ->
      conversar_com_gaia str_lower prompt_usuario historico_chat (g, w)
      = (Raise e, (g, w1))).
Proof.
  intros Hprev Han. unfold conversar_com_gaia. rewrite Hprev, Han.
  unfold bind, le_estado, Gaia.no_mundo, dentro, de_resultado, ret.
  cbn [fst snd]. split.
  - intros Hss. unfold Dominio.observar_realidade. rewrite Hss.
    destruct g; reflexivity.
  - intros e w1 Hobs. rewrite Hobs. destruct g; reflexivity.
Qed.

Lemma conversar_analise_erros_witness :
  let s := gaia_de (Dominio.mk "sem sentidos" [] ["A0"; "A1"]) (mundo_constante 0 0) in
  let g := fst s in
  let w := snd s in
  let prompt := "ANALISE" in
  str_contem "preveja" (str_lower_ascii prompt)
  || str_contem "previsão" (str_lower_ascii prompt) = false /\
  str_contem "por que" (str_lower_ascii prompt)
  || str_contem "analise" (str_lower_ascii prompt) = true /\
  (Dominio.sentidos (Gaia.dominio g) = [] ->
   conversar_com_gaia str_lower_ascii prompt [] (g, w)
   = (Raise (ValueError "max() arg is an empty sequence"), (g, w))) /\
  (forall e w1,
      Dominio.observar_realidade (Gaia.dominio g) w = (Raise e, w1) ->
      conversar_com_gaia str_lower_ascii prompt [] (g, w)
      = (Raise e, (g, w1))).
Proof.
  intros s g w prompt.
  split; [reflexivity |]. split; [reflexivity |].
  exact (@conversar_analise_erros str_lower_ascii prompt [] g w eq_refl eq_refl).
Defined.

(* ================================================================== *)
(** * The program over the arithmetic of the machine *)

Lemma nth_error_zip_with {X Y Z : Type} (f : X -> Y -> Z) (l : list X) (l' : list Y)
  (i : nat) :
  nth_error (zip_with f l l') i
  = match nth_error l i, nth_error l' i with
    | Some x, Some y => Some (f x y)
    | _, _ => None
    end.
Proof.
  revert l' i; induction l as [| x t IH]; intros [| y t'] [| i]; simpl;
    try reflexivity.
  - destruct (nth_error t i); reflexivity.
  - apply IH.
Qed.

Lemma nth_error_map_seq {X : Type} (f : nat -> X) (n i : nat) :
  (i < n)%nat -> nth_error (map f (seq 0 n)) i = Some (f i).
Proof.
  intros Hi. rewrite nth_error_map, nth_error_seq.
  apply Nat.ltb_lt in Hi. rewrite Hi. reflexivity.
Qed.

Lemma maquina_evoluir_eq (A : Aritmetica) (taxa : num A)
  (m : Maquina.MotorEvolutivo.t A) (w : Maquina.Mundo A) :
  let W := Maquina.MotorEvolutivo.pesos m in
  Maquina.MotorEvolutivo.evoluir taxa (m, w)
  = (Ok tt,
     (Maquina.MotorEvolutivo.mk
        (Maquina.mat_soma W
           (Maquina.mat_map (fun u => n_mul A (n_sub A u (n_meio A)) taxa)
              (Maquina.sorteio (Maquina.n_linhas W) (Maquina.n_colunas W) w))),
      Maquina.avanca_np (Maquina.n_linhas W * Maquina.n_colunas W) w)).
Proof. reflexivity. Qed.

(** Entry (s, a) after the mutation: the old entry plus the perturbation
    made of draw number [s * A + a]. *)
Lemma maquina_entrada_mutacao (A : Aritmetica) (taxa : num A)
  (W : Maquina.ndarray2 A) (w : Maquina.Mundo A) (s a : nat) (x : num A) :
  (s < Maquina.n_linhas W)%nat -> (a < Maquina.n_colunas W)%nat ->
  Maquina.entrada W s a = Some x ->
  Maquina.entrada
    (Maquina.mat_soma W
       (Maquina.mat_map (fun u => n_mul A (n_sub A u (n_meio A)) taxa)
          (Maquina.sorteio (Maquina.n_linhas W) (Maquina.n_colunas W) w))) s a
  = Some (n_add A x
            (n_mul A
               (n_sub A
                  (Maquina.np_fita w
                     (Maquina.np_pos w + s * Maquina.n_colunas W + a)%nat)
                  (n_meio A))
               taxa)).
Proof.
  intros Hs Ha Hx. unfold Maquina.entrada in *.
  cbn [Maquina.mat_soma Maquina.mat_map Maquina.sorteio Maquina.linhas].
  rewrite nth_error_zip_with.
  rewrite nth_error_map, (nth_error_map_seq _ Hs). cbn [option_map].
  match type of Hx with
  | match ?t with _ => _ end = _ => destruct t as [linha |] eqn:Hl
  end; [| discriminate Hx].
  match goal with
  | |- context [match ?t with Some _ => Some _ | None => None end] =>
      replace t with (Some linha) by (symmetry; exact Hl)
  end.
  rewrite nth_error_zip_with, Hx.
  rewrite nth_error_map, (nth_error_map_seq _ Ha). reflexivity.
Qed.

Lemma nth_error2_zip_with {X : Type} (f : X -> X -> X) (l l' : list (list X))
  (s a : nat) :
  match nth_error (zip_with (zip_with f) l l') s with
  | Some linha => nth_error linha a
  | None => None
  end
  = match
      match nth_error l s with Some linha => nth_error linha a | None => None end,
      match nth_error l' s with Some linha => nth_error linha a | None => None end
    with
    | Some x, Some y => Some (f x y)
    | _, _ => None
    end.
Proof.
  rewrite nth_error_zip_with.
  destruct (nth_error l s) as [r |], (nth_error l' s) as [r' |]; try reflexivity.
  - apply nth_error_zip_with.
  - destruct (nth_error r a); reflexivity.
Qed.

Lemma maquina_entrada_mat_soma (A : Aritmetica) (W M : Maquina.ndarray2 A)
  (s a : nat) :
  Maquina.entrada (Maquina.mat_soma W M) s a
  = match Maquina.entrada W s a, Maquina.entrada M s a with
    | Some x, Some y => Some (n_add A x y)
    | _, _ => None
    end.
Proof. apply nth_error2_zip_with. Qed.

Lemma maquina_viver_um_ciclo_eq (A : Aritmetica) (R : Reducoes A)
  (g : Maquina.Gaia.t A) (w : Maquina.Mundo A) :
  Maquina.Gaia.viver_um_ciclo R (g, w) =
  match Maquina.Dominio.observar_realidade (Maquina.Gaia.dominio g) w with
  | (Raise e, w1) => (Raise e, (g, w1))
  | (Ok rd, w1) =>
      match Maquina.np_dot R (Maquina.dict_values rd)
              (Maquina.MotorEvolutivo.pesos (Maquina.Gaia.motor g)) with
      | Raise e => (Raise e, (g, w1))
      | Ok bruta =>
          match Maquina.NucleoEtico.observar_realidade_etica
                  (Maquina.Gaia.nucleo_etico g) w1 with
          | (Raise e, w2) => (Raise e, (g, w2))
          | (Ok red, w2) =>
              let d := Maquina.NucleoEtico.calcular_dissonancia R
                         (Maquina.Gaia.nucleo_etico g) red in
              let ms := snd (Maquina.MotorEvolutivo.evoluir
                               (Maquina.MotorEvolutivo.taxa_mutacao_padrao A)
                               (Maquina.Gaia.motor g, w2)) in
              (match Maquina.np_argmax (Maquina.temperar R bruta d) with
               | Ok i => list_index
                           (Maquina.Dominio.acoes_possiveis (Maquina.Gaia.dominio g)) i
               | Raise e => Raise e
               end,
               (Maquina.Gaia.mk (Maquina.Gaia.dominio g) (fst ms)
                                (Maquina.Gaia.nucleo_etico g),
                snd ms))
          end
      end
  end.
Proof.
  destruct g as [d m n].
  unfold Maquina.Gaia.viver_um_ciclo, bind, le_estado, Maquina.Gaia.no_mundo,
    Maquina.Gaia.no_motor, dentro, Maquina.MotorEvolutivo.pensar, de_resultado, ret;
    simpl.
  destruct (Maquina.Dominio.observar_realidade d w) as [[rd | e] w1]; simpl;
    [| reflexivity].
  unfold bind, le_estado; simpl.
  destruct (Maquina.np_dot R (Maquina.dict_values rd) (Maquina.MotorEvolutivo.pesos m))
    as [bruta | e]; simpl; [| destruct m; reflexivity].
  destruct (Maquina.NucleoEtico.observar_realidade_etica n w1) as [[red | e] w2];
    simpl; [| destruct m; reflexivity].
  destruct (Maquina.np_argmax _); reflexivity.
Qed.

(* ------------------------------------------------------------------ *)
(** ** Tempering in the cycle *)

(** C3: in every cycle that reaches the tempering step (the observation,
    the product and the ethical observation returned), whatever the
    arithmetic the numbers are computed with, the dissonance is [sum] of the
    values of the ethical observation of this very cycle, the final
    preference has one entry per raw preference, entry [a] being
    [raw[a] - dissonance * mean(raw)] with [mean(raw)] the sum of the raw
    preferences divided by their number, the cycle returns the action at the
    arg-max of that final preference, and it leaves the world that the
    ethical observation left, advanced by the draws of the mutation. *)
Theorem C3_temperar_no_ciclo (A : Aritmetica) (R : Reducoes A)
  (g : Maquina.Gaia.t A) (w : Maquina.Mundo A)
  (rd : Maquina.dict A) (w1 : Maquina.Mundo A) (bruta : Maquina.vetor A)
  (red : Maquina.dict A) (w2 : Maquina.Mundo A) :
  Maquina.Dominio.observar_realidade (Maquina.Gaia.dominio g) w = (Ok rd, w1) ->
  Maquina.MotorEvolutivo.pensar R (Maquina.dict_values rd) (Maquina.Gaia.motor g, w1)
    = (Ok bruta, (Maquina.Gaia.motor g, w1)) ->
  Maquina.NucleoEtico.observar_realidade_etica (Maquina.Gaia.nucleo_etico g) w1
    = (Ok red, w2) ->
  let dissonancia := py_sum R (map snd red) in
  let media := n_div A (np_sum R bruta) (n_de_nat A (length bruta)) in
  let final := map (fun x => n_sub A x (n_mul A dissonancia media)) bruta in
  let W := Maquina.MotorEvolutivo.pesos (Maquina.Gaia.motor g) in
  Maquina.NucleoEtico.calcular_dissonancia R (Maquina.Gaia.nucleo_etico g) red
  = dissonancia /\
  length final = length bruta /\
  (forall a x, nth_error bruta a = Some x ->
     nth_error final a = Some (n_sub A x (n_mul A dissonancia media))) /\
  fst (Maquina.Gaia.viver_um_ciclo R (g, w))
  = match Maquina.np_argmax final with
    | Ok i => list_index (Maquina.Dominio.acoes_possiveis (Maquina.Gaia.dominio g)) i
    | Raise e => Raise e
    end /\
  snd (snd (Maquina.Gaia.viver_um_ciclo R (g, w)))
  = Maquina.avanca_np (Maquina.n_linhas W * Maquina.n_colunas W) w2.
Proof.
  intros Hobs Hp Het dissonancia media final W.
  assert (Hdot : Maquina.np_dot R (Maquina.dict_values rd) W = Ok bruta).
  { unfold Maquina.MotorEvolutivo.pensar, bind, le_estado, de_resultado in Hp.
    cbn [fst] in Hp. injection Hp as Hp. exact Hp. }
  split; [reflexivity |].
  split; [apply length_map |].
  split.
  - intros a x Hx. unfold final. rewrite nth_error_map, Hx. reflexivity.
  - rewrite maquina_viver_um_ciclo_eq, Hobs. fold W. rewrite Hdot, Het.
    cbv zeta. rewrite maquina_evoluir_eq. cbn [fst snd].
    split; reflexivity.
Qed.

#[local] Set Warnings "-inexact-float".

Lemma C3_temperar_no_ciclo_witness :
  let R := em_sequencia binary64 in
  let g := gaia_binary64 in
  let w := mundo_binary64 in
  let rd : Maquina.dict binary64 := [("s0", 1%float)] in
  let bruta : Maquina.vetor binary64 :=
    [1%float; 0x1.0000000000001p0%float; (-1e17)%float] in
  let red : Maquina.dict binary64 :=
    [("dano_sistemico", 0%float); ("bem-estar_agentes", 0.5%float)] in
  let w2 := @Maquina.mk_Mundo binary64 (Maquina.py_fita w) 2
              (Maquina.np_fita w) 0 in
  Maquina.Dominio.observar_realidade (Maquina.Gaia.dominio g) w = (Ok rd, w) /\
  Maquina.MotorEvolutivo.pensar R (Maquina.dict_values rd) (Maquina.Gaia.motor g, w)
    = (Ok bruta, (Maquina.Gaia.motor g, w)) /\
  Maquina.NucleoEtico.observar_realidade_etica (Maquina.Gaia.nucleo_etico g) w
    = (Ok red, w2) /\
  let dissonancia := py_sum R (map snd red) in
  let media := n_div binary64 (np_sum R bruta) (n_de_nat binary64 (length bruta)) in
  let final :=
    map (fun x => n_sub binary64 x (n_mul binary64 dissonancia media)) bruta in
  let W := Maquina.MotorEvolutivo.pesos (Maquina.Gaia.motor g) in
  Maquina.NucleoEtico.calcular_dissonancia R (Maquina.Gaia.nucleo_etico g) red
  = dissonancia /\
  length final = length bruta /\
  (forall a x, nth_error bruta a = Some x ->
     nth_error final a = Some (n_sub binary64 x (n_mul binary64 dissonancia media))) /\
  fst (Maquina.Gaia.viver_um_ciclo R (g, w))
  = match Maquina.np_argmax final with
    | Ok i => list_index (Maquina.Dominio.acoes_possiveis (Maquina.Gaia.dominio g)) i
    | Raise e => Raise e
    end /\
  snd (snd (Maquina.Gaia.viver_um_ciclo R (g, w)))
  = Maquina.avanca_np (Maquina.n_linhas W * Maquina.n_colunas W) w2.
Proof.
  intros R g w rd bruta red w2.
  assert (H1 : Maquina.Dominio.observar_realidade (Maquina.Gaia.dominio g) w
               = (Ok rd, w)) by reflexivity.
  assert (H2 : Maquina.MotorEvolutivo.pensar R (Maquina.dict_values rd)
                 (Maquina.Gaia.motor g, w)
               = (Ok bruta, (Maquina.Gaia.motor g, w))) by reflexivity.
  assert (H3 : Maquina.NucleoEtico.observar_realidade_etica
                 (Maquina.Gaia.nucleo_etico g) w = (Ok red, w2)) by reflexivity.
  split; [exact H1 |]. split; [exact H2 |]. split; [exact H3 |].
  exact (@C3_temperar_no_ciclo binary64 R g w rd w bruta red w2 H1 H2 H3).
Defined.

(** On those binary64 numbers the tempering decides the action: the raw
    preference is greatest at index 1, the shift rounds its first two
    entries to the same number, and the cycle returns the action of
    index 0. *)
Example temperar_binary64_decide :
  Maquina.np_argmax (A := binary64)
    [1%float; 0x1.0000000000001p0%float; (-1e17)%float] = Ok 1%nat /\
  Maquina.temperar (A := binary64) (em_sequencia binary64)
    [1%float; 0x1.0000000000001p0%float; (-1e17)%float] 0.5%float
  = [16666666666666668%float; 16666666666666668%float; (-83333333333333328)%float] /\
  fst (Maquina.Gaia.viver_um_ciclo (em_sequencia binary64)
         (gaia_binary64, mundo_binary64)) = Ok "A0".
Proof. repeat split. Qed.

#[local] Set Warnings "+inexact-float".

(* ------------------------------------------------------------------ *)
(** ** Mutation *)

#[local] Set Warnings "-inexact-float".

(** C4, on the code: the weight can move by more than half the rate.  With
    rate 0.01, the weight 0.75 and the draw 0.0 give 0.745, which is
    0.0050000000000000044 away (both differences below are exact in
    binary64); and the weight 2^45 with the draw 0.96875 gives the next
    binary64 number, 0.0078125 away.  Half the rate is 0.005. *)
Lemma evoluir_binary64_excede_meia_taxa :
  (0 <=? 0.01)%float = true /\
  ((0 <=? 0) && (0 <? 1))%float = true /\
  peso_evoluido 0.01 0.75 0 = Some 0.745%float /\
  (0.75 - 0.745)%float = 0.0050000000000000044%float /\
  (0.01 / 2 <? 0.75 - 0.745)%float = true /\
  ((0 <=? 0.96875) && (0.96875 <? 1))%float = true /\
  peso_evoluido 0.01 0x1p45 0.96875 = Some 0x1.0000000000001p45%float /\
  (0x1.0000000000001p45 - 0x1p45)%float = 0.0078125%float /\
  (0.01 / 2 <? 0x1.0000000000001p45 - 0x1p45)%float = true.
Proof. repeat split. Qed.

#[local] Set Warnings "+inexact-float".

(** C4, amended.  In every arithmetic, for every weight matrix, rate and
    world, [evoluir] returns, keeps the shape of the matrix and consumes one
    draw per entry; the entry at (s, a) becomes the old entry plus the
    perturbation made of its own draw, number [s * A + a], minus 0.5, times
    the rate; and the perturbations are drawn apart: a world that differs in
    the draw of one entry gives the same value at every other entry.  In
    exact arithmetic, with draws of [0, 1) and a rate that is not negative,
    every entry then differs from its prior value by at most half the rate
    in absolute value. *)
Theorem C4_evoluir_perturbacao :
  (forall (A : Aritmetica) (m : Maquina.MotorEvolutivo.t A) (r : num A)
          (w : Maquina.Mundo A),
      let W := Maquina.MotorEvolutivo.pesos m in
      let S := Maquina.n_linhas W in
      let N := Maquina.n_colunas W in
      let depois w0 :=
        Maquina.MotorEvolutivo.pesos
          (fst (snd (Maquina.MotorEvolutivo.evoluir r (m, w0)))) in
      Maquina.MotorEvolutivo.evoluir r (m, w)
      = (Ok tt, (Maquina.MotorEvolutivo.mk (depois w), Maquina.avanca_np (S * N) w)) /\
      Maquina.shape (depois w) = Maquina.shape W /\
      length (Maquina.linhas (depois w))
      = Nat.min (length (Maquina.linhas W)) S /\
      (forall s a x, (s < S)%nat -> (a < N)%nat ->
         Maquina.entrada W s a = Some x ->
         Maquina.entrada (depois w) s a
         = Some (n_add A x
                   (n_mul A
                      (n_sub A (Maquina.np_fita w (Maquina.np_pos w + s * N + a)%nat)
                               (n_meio A))
                      r))) /\
      (forall s a s' a' y, (s < S)%nat -> (a < N)%nat -> (s' < S)%nat -> (a' < N)%nat ->
         (s, a) <> (s', a') ->
         Maquina.entrada
           (depois (Maquina.com_sorteio (Maquina.np_pos w + s' * N + a')%nat y w)) s a
         = Maquina.entrada (depois w) s a)) /\
  (forall (m : Maquina.MotorEvolutivo.t exata) (r : Q) (w : Maquina.Mundo exata)
          (s a : nat) (x x' : Q),
      0 <= r ->
      (forall n, 0 <= Maquina.np_fita w n /\ Maquina.np_fita w n < 1) ->
      (s < Maquina.n_linhas (Maquina.MotorEvolutivo.pesos m))%nat ->
      (a < Maquina.n_colunas (Maquina.MotorEvolutivo.pesos m))%nat ->
      Maquina.entrada (Maquina.MotorEvolutivo.pesos m) s a = Some x ->
      Maquina.entrada
        (Maquina.MotorEvolutivo.pesos
           (fst (snd (Maquina.MotorEvolutivo.evoluir (A := exata) r (m, w))))) s a
      = Some x' ->
      Qabs (x' - x) <= r / 2).
Proof.
  split.
  - intros A m r w W S N depois. subst depois S N W. cbv beta.
    split; [reflexivity |]. split; [reflexivity |].
    split.
    { rewrite maquina_evoluir_eq. cbv zeta. cbn [fst snd Maquina.MotorEvolutivo.pesos].
      cbn [Maquina.mat_soma Maquina.mat_map Maquina.sorteio Maquina.linhas].
      rewrite zip_with_length, !length_map, length_seq. reflexivity. }
    split.
    + intros s a x Hs Ha Hx.
      rewrite maquina_evoluir_eq. cbv zeta. cbn [fst snd Maquina.MotorEvolutivo.pesos].
      apply maquina_entrada_mutacao; assumption.
    + intros s a s' a' y Hs Ha Hs' Ha' Hne.
      rewrite !maquina_evoluir_eq. cbv zeta. cbn [fst snd Maquina.MotorEvolutivo.pesos].
      destruct (Maquina.entrada (Maquina.MotorEvolutivo.pesos m) s a) as [x |] eqn:Hx.
      * rewrite (@maquina_entrada_mutacao A r _ w s a x Hs Ha Hx).
        rewrite (@maquina_entrada_mutacao A r _ _ s a x Hs Ha Hx).
        cbn [Maquina.com_sorteio Maquina.np_fita Maquina.np_pos].
        destruct (Nat.eqb (Maquina.np_pos w + s * Maquina.n_colunas (Maquina.MotorEvolutivo.pesos m) + a)
                          (Maquina.np_pos w + s' * Maquina.n_colunas (Maquina.MotorEvolutivo.pesos m) + a')) eqn:E;
          [| reflexivity].
        exfalso. apply Nat.eqb_eq in E. apply Hne.
        assert (Hsa : (s * Maquina.n_colunas (Maquina.MotorEvolutivo.pesos m) + a
                       = s' * Maquina.n_colunas (Maquina.MotorEvolutivo.pesos m) + a')%nat) by lia.
        destruct (Nat.lt_trichotomy s s') as [Hlt | [-> | Hlt]].
        -- pose proof (Nat.mul_le_mono_r (S s) s' (Maquina.n_colunas (Maquina.MotorEvolutivo.pesos m)) Hlt).
           simpl in *. lia.
        -- f_equal. lia.
        -- pose proof (Nat.mul_le_mono_r (S s') s (Maquina.n_colunas (Maquina.MotorEvolutivo.pesos m)) Hlt).
           simpl in *. lia.
      * rewrite !maquina_entrada_mat_soma, Hx. reflexivity.
  - intros m r w s a x x' Hr Hnp Hs Ha Hx Hx'.
    rewrite maquina_evoluir_eq in Hx'. cbv zeta in Hx'. cbn [fst snd] in Hx'.
    cbn [Maquina.MotorEvolutivo.pesos] in Hx'.
    rewrite (@maquina_entrada_mutacao exata r _ w s a x Hs Ha Hx) in Hx'.
    injection Hx' as <-. cbn [n_add n_mul n_sub n_meio exata].
    destruct (Hnp (Maquina.np_pos w
                   + s * Maquina.n_colunas (Maquina.MotorEvolutivo.pesos m) + a)%nat)
      as [H0 H1].
    generalize dependent
      (Maquina.np_fita w
         (Maquina.np_pos w
          + s * Maquina.n_colunas (Maquina.MotorEvolutivo.pesos m) + a)%nat).
    intros u H0 H1.
    setoid_replace (x + (u - (1 # 2)) * r - x) with ((u - (1 # 2)) * r) by ring.
    apply Qabs_Qle_condition. split.
    + setoid_replace (- (r / 2)) with ((0 - (1 # 2)) * r) by field.
      apply Qmult_le_compat_r; [clear - H0; lra | exact Hr].
    + setoid_replace (r / 2) with ((1 - (1 # 2)) * r) by field.
      apply Qmult_le_compat_r; [clear - H1; lra | exact Hr].
Qed.

Lemma C4_evoluir_perturbacao_witness :
  let m := Maquina.MotorEvolutivo.mk
             (@Maquina.mk_ndarray2 exata (1%nat, 1%nat) [[3 # 4]]) in
  let r := 1 # 100 in
  let w := @Maquina.mk_Mundo exata (fun _ => 0) 0 (fun _ => 1 # 4) 0 in
  let x := 3 # 4 in
  let x' := (3 # 4) + ((1 # 4) - (1 # 2)) * (1 # 100) in
  0 <= r /\
  (forall n, 0 <= Maquina.np_fita w n /\ Maquina.np_fita w n < 1) /\
  (0 < Maquina.n_linhas (Maquina.MotorEvolutivo.pesos m))%nat /\
  (0 < Maquina.n_colunas (Maquina.MotorEvolutivo.pesos m))%nat /\
  Maquina.entrada (Maquina.MotorEvolutivo.pesos m) 0 0 = Some x /\
  Maquina.entrada
    (Maquina.MotorEvolutivo.pesos
       (fst (snd (Maquina.MotorEvolutivo.evoluir (A := exata) r (m, w))))) 0 0
  = Some x' /\
  Qabs (x' - x) <= r / 2.
Proof.
  intros m r w x x'.
  assert (Hr : 0 <= r) by (intros H; discriminate H).
  assert (Hnp : forall n, 0 <= Maquina.np_fita w n /\ Maquina.np_fita w n < 1)
    by (intros n; split; [intros H; discriminate H | reflexivity]).
  assert (Hs : (0 < Maquina.n_linhas (Maquina.MotorEvolutivo.pesos m))%nat)
    by (apply Nat.lt_0_succ).
  assert (Ha : (0 < Maquina.n_colunas (Maquina.MotorEvolutivo.pesos m))%nat)
    by (apply Nat.lt_0_succ).
  split; [exact Hr |]. split; [exact Hnp |]. split; [exact Hs |]. split; [exact Ha |].
  split; [reflexivity |]. split; [reflexivity |].
  exact (proj2 C4_evoluir_perturbacao m r w 0%nat 0%nat x x' Hr Hnp Hs Ha
           eq_refl eq_refl).
Defined.
